(** * A queue downloader: the queue loader, the error classifier, the retry
    loop and the run recorder of [src/main.py], embedded and verified.

    Modelling decisions, once for the whole file.

    - A Python [str] is a [string]: a sequence of characters with code points
      below 256 (the Latin-1 range).  On that range [str.lower],
      [str.isspace], [str.splitlines], the character classes of [re] and
      the comparison of [re.IGNORECASE] are the tables written out below.
      A text with a character beyond 255 is no string of the model; where a
      statement would read differently on such a text, it says so.
    - An [int] is a [Z].
    - The file system is a finite map from paths to the text [read_text]
      returns.  Storage errors other than a missing file (permissions, a
      directory in place of a file, text that is not UTF-8) are outside the
      model, and so is the creation of the download directories.
    - The download library and [json] are not part of the program: an attempt
      of the library is an oracle over the history of the run, and
      [json.loads]/[json.dumps] are parameters.
    - An exception of the model carries the message [str] returns for it.
      An object whose [__str__] raises is a [failure], the input of the
      classifier taken as a call.
    - [time.sleep] raises on a length it refuses (negative, or too large for
      its clock); an interrupt from the keyboard reaches a run through an
      attempt of the library, not in the middle of a pause.
    - Lines printed to standard output are not modelled. *)

From Stdlib Require Import ZArith Ascii String List Bool Lia.
From Equations Require Import Equations.
From stdpp Require Import base option list gmap strings.

Import ListNotations.
Local Open Scope string_scope.
Local Open Scope list_scope.
Local Open Scope Z_scope.

(** ** Characters and strings as Python has them *)

Module Str.

Definition code (c : ascii) : N := N_of_ascii c.

(** [str.lower] on one character: [A-Z] and the Latin-1 capitals
    [U+00C0..U+00DE] ([U+00D7], the multiplication sign, apart) move up
    by 32; every other character below 256 is its own lower case. *)
Definition lower_char (c : ascii) : ascii :=
  let n := code c in
  if ((65 <=? n) && (n <=? 90))%N
     || ((192 <=? n) && (n <=? 222) && negb (n =? 215))%N
  then ascii_of_N (n + 32)
  else c.

Fixpoint lower (s : string) : string :=
  match s with
  | EmptyString => EmptyString
  | String c s' => String (lower_char c) (lower s')
  end.

(** [str.isspace] on one character (and [\s] of [re] on a [str]). *)
Definition isspace (c : ascii) : bool :=
  let n := code c in
  (((9 <=? n) && (n <=? 13)) || ((28 <=? n) && (n <=? 32))
   || (n =? 133) || (n =? 160))%N.

(** The line boundaries of [str.splitlines], the pair CR LF apart. *)
Definition islinebreak (c : ascii) : bool :=
  let n := code c in
  (((10 <=? n) && (n <=? 13)) || ((28 <=? n) && (n <=? 30)) || (n =? 133))%N.

Definition LF : ascii := ascii_of_N 10.
Definition CR : ascii := ascii_of_N 13.

(** [s.startswith(pre)] *)
Fixpoint startswith (s pre : string) {struct pre} : bool :=
  match pre, s with
  | EmptyString, _ => true
  | String p pre', String c s' => if Ascii.eqb p c then startswith s' pre' else false
  | String _ _, EmptyString => false
  end.

(** [sub in s] *)
Fixpoint contains (sub s : string) : bool :=
  startswith s sub
  || match s with
     | EmptyString => false
     | String _ s' => contains sub s'
     end.

(** [s.lstrip()], [s.rstrip()] and [s.strip()] with no argument. *)
Fixpoint lstrip (s : string) : string :=
  match s with
  | EmptyString => EmptyString
  | String c s' => if isspace c then lstrip s' else s
  end.

Fixpoint rstrip (s : string) : string :=
  match s with
  | EmptyString => EmptyString
  | String c s' =>
      match rstrip s' with
      | EmptyString => if isspace c then EmptyString else String c EmptyString
      | r => String c r
      end
  end.

Definition strip (s : string) : string := rstrip (lstrip s).

(** [s.splitlines()]: [cur] is the line being read; a text that ends in
    a line boundary has no empty last line. *)
Fixpoint splitlines_from (cur : string) (s : string) : list string :=
  match s with
  | EmptyString =>
      match cur with EmptyString => [] | _ => [cur] end
  | String c s' =>
      if Ascii.eqb c CR then
        match s' with
        | String c' s'' =>
            if Ascii.eqb c' LF then cur :: splitlines_from EmptyString s''
            else cur :: splitlines_from EmptyString s'
        | EmptyString => cur :: splitlines_from EmptyString s'
        end
      else if islinebreak c then cur :: splitlines_from EmptyString s'
      else splitlines_from (cur +:+ String c EmptyString) s'
  end.

Definition splitlines (s : string) : list string :=
  splitlines_from EmptyString s.

(** [sep.join(parts)] *)
Fixpoint join (sep : string) (parts : list string) : string :=
  match parts with
  | [] => EmptyString
  | [p] => p
  | p :: rest => p +:+ sep +:+ join sep rest
  end.

End Str.

(** ** Regular expressions, as far as the two patterns of the program go *)

Module Re.

(** What matches one character. *)
Inductive item :=
| Lit (c : ascii)               (* the character itself *)
| NoneOf (p : ascii -> bool).   (* a negated class: [^...] *)

Inductive re :=
| Eps
| One (i : item)
| Many (i : item)               (* i+, greedy *)
| Cat (r1 r2 : re)
| Alt (r1 r2 : re)              (* r1|r2 *)
| Opt (r : re)                  (* r?, greedy *)
| Group (r : re).               (* ( r ): each pattern here has one group *)

(** A literal run of characters. *)
Fixpoint lit (s : string) : re :=
  match s with
  | EmptyString => Eps
  | String c s' => Cat (One (Lit c)) (lit s')
  end.

(** The comparison [re.IGNORECASE] makes between a character of the pattern
    and a character of the text: [re] compares the lower case of the two,
    and then looks in its table of further equivalences (i with U+0131, s
    with U+017F, U+00B5 with U+03BC, ...).  Every class of that table has a
    single member below 256, so between two characters of the model the
    comparison is equality of lower case.  On a full [str] it is more than
    that: the letter s of a pattern also matches U+017F, a character no
    string of the model holds. *)
Definition same_letter (c d : ascii) : bool :=
  Ascii.eqb (Str.lower_char c) (Str.lower_char d).

(** [ic] is the flag [re.IGNORECASE]. *)
Definition item_matches (ic : bool) (i : item) (d : ascii) : bool :=
  match i with
  | Lit c => if ic then same_letter c d else Ascii.eqb c d
  | NoneOf p => negb (p d)
  end.

(** The part of [s] read when [rest] is what is left of it. *)
Definition consumed (s rest : string) : string :=
  String.substring 0 (String.length s - String.length rest) s.

(** A backtracking matcher in continuation-passing style: [matcher ic r s
    cap k] matches [r] at the start of [s] and hands the rest of the text
    and the text of the group to [k]; the alternatives are tried in the
    order [re] tries them (left branch of [|] first, longest run of [+]
    and [?] first). *)
Fixpoint matcher {A : Type} (ic : bool) (r : re) (s : string)
    (cap : option string) (k : string -> option string -> option A)
    {struct r} : option A :=
  match r with
  | Eps => k s cap
  | One i =>
      match s with
      | String d s' => if item_matches ic i d then k s' cap else None
      | EmptyString => None
      end
  | Many i =>
      (fix many (s : string) : option A :=
         match s with
         | String d s' =>
             if item_matches ic i d then
               match many s' with
               | Some x => Some x
               | None => k s' cap
               end
             else None
         | EmptyString => None
         end) s
  | Cat r1 r2 => matcher ic r1 s cap (fun s1 cap1 => matcher ic r2 s1 cap1 k)
  | Alt r1 r2 =>
      match matcher ic r1 s cap k with
      | Some x => Some x
      | None => matcher ic r2 s cap k
      end
  | Opt r1 =>
      match matcher ic r1 s cap k with
      | Some x => Some x
      | None => k s cap
      end
  | Group r1 => matcher ic r1 s cap (fun s1 _ => k s1 (Some (consumed s s1)))
  end.

(** [pattern.search(s)]: the match at the leftmost position that has one;
    the result is [group(1)] of that match. *)
Fixpoint search (ic : bool) (r : re) (s : string) : option (option string) :=
  match matcher ic r s None (fun _ cap => Some cap) with
  | Some cap => Some cap
  | None =>
      match s with
      | EmptyString => None
      | String _ s' => search ic r s'
      end
  end.

(** [bool(pattern.search(s))] *)
Definition found (ic : bool) (r : re) (s : string) : bool :=
  match search ic r s with Some _ => true | None => false end.

(** [m.group(1)] of a match: a group that took no part is not a value
    the program reads (both patterns always run through their group). *)
Definition group1 (ic : bool) (r : re) (s : string) : option string :=
  match search ic r s with
  | Some (Some g) => Some g
  | _ => None
  end.

End Re.

(** [YOUTUBE_URL_RE = re.compile(r"https?://(?:www\.)?(youtube\.com|youtu\.be)/", re.IGNORECASE)] *)
Definition YOUTUBE_URL_RE : Re.re :=
  Re.Cat (Re.lit "http")
    (Re.Cat (Re.Opt (Re.One (Re.Lit "s")))
       (Re.Cat (Re.lit "://")
          (Re.Cat (Re.Opt (Re.lit "www."))
             (Re.Cat (Re.Group (Re.Alt (Re.lit "youtube.com") (Re.lit "youtu.be")))
                (Re.One (Re.Lit "/")))))).

(** The class [[^\s)]] of [MARKDOWN_LINK_RE]. *)
Definition space_or_close (c : ascii) : bool :=
  Str.isspace c || Ascii.eqb c ")".

(** [MARKDOWN_LINK_RE = re.compile(r"\((https?://[^\s)]+)\)")] *)
Definition MARKDOWN_LINK_RE : Re.re :=
  Re.Cat (Re.One (Re.Lit "("))
    (Re.Cat
       (Re.Group
          (Re.Cat (Re.lit "http")
             (Re.Cat (Re.Opt (Re.One (Re.Lit "s")))
                (Re.Cat (Re.lit "://") (Re.Many (Re.NoneOf space_or_close))))))
       (Re.One (Re.Lit ")"))).

(** ** The data model *)

Inductive StatusCode := SUCCESS | RATE_LIMIT | AGE_LIMIT | UNKNOWN_ERROR.

Global Instance StatusCode_eq_dec : EqDecision StatusCode.
Proof. solve_decision. Defined.

(** [StatusCode] is a [str] enumeration: the value of a member. *)
Definition StatusCode_value (sc : StatusCode) : string :=
  match sc with
  | SUCCESS => "SUCCESS"
  | RATE_LIMIT => "RATE_LIMIT"
  | AGE_LIMIT => "AGE_LIMIT"
  | UNKNOWN_ERROR => "UNKNOWN_ERROR"
  end.

Record LogEntry := {
  url : string;
  status : string;              (* downloaded | failed *)
  status_code : StatusCode;
  retries : Z;
  date_created : string;
}.

Record Config := {
  queue_file : string;
  failed_file : string;
  log_file : string;
  downloads_dir : string;
  max_retries : Z;
  retry_delay_seconds : Z;
  ytdlp_format : string;
}.

(** [Config()]: every field at its default. *)
Definition Config_default : Config := {|
  queue_file := "queue.md";
  failed_file := "failed.md";
  log_file := "log.json";
  downloads_dir := "downloads";
  max_retries := 3;
  retry_delay_seconds := 5;
  ytdlp_format := "bestvideo+bestaudio/best";
|}.

(** The values [json] reads and writes (numbers that are not integers are
    left out: the program writes none). *)
#[local] Unset Elimination Schemes.
Inductive json :=
| JNull
| JBool (b : bool)
| JInt (n : Z)
| JStr (s : string)
| JList (items : list json)
| JDict (fields : list (string * json)).
#[local] Set Elimination Schemes.

(** [asdict(entry)], as [json.dumps] sees it: a member of [StatusCode] is
    written as the string that is its value. *)
Definition asdict (e : LogEntry) : json :=
  JDict [ ("url", JStr (url e));
          ("status", JStr (status e));
          ("status_code", JStr (StatusCode_value (status_code e)));
          ("retries", JInt (retries e));
          ("date_created", JStr (date_created e)) ].

(** ** Exceptions, the state of a run and its monad *)

Inductive exn :=
| DownloadError (msg : string)
| ExtractorError (msg : string)
| OSError (msg : string)          (* FileNotFoundError is one *)
| ValueError (msg : string)       (* json.JSONDecodeError is one *)
| OverflowError (msg : string)    (* an ArithmeticError *)
| OtherException (msg : string)   (* any other subclass of Exception *)
| KeyboardInterrupt
| OtherBaseException.             (* SystemExit, GeneratorExit: not an Exception *)

(** [str(exc)] *)
Definition str_exn (e : exn) : string :=
  match e with
  | DownloadError m | ExtractorError m | OSError m | ValueError m
  | OverflowError m | OtherException m => m
  | KeyboardInterrupt | OtherBaseException => ""
  end.

(** [isinstance(exc, Exception)]: what a clause [except Exception] catches. *)
Definition is_Exception (e : exn) : bool :=
  match e with
  | KeyboardInterrupt | OtherBaseException => false
  | _ => true
  end.

(** What a run does that the world can see, besides its files: an attempt
    of the download library on a URL, and a pause of [time.sleep]. *)
Inductive event :=
| Attempt (u : string)
| Sleep (seconds : Z).

Record state := {
  files : gmap string string;
  trace : list event;
}.

Inductive result (A : Type) :=
| Ok (a : A)
| Raise (e : exn).
Arguments Ok {A} a.
Arguments Raise {A} e.

Definition M (A : Type) : Type := state -> result A * state.

Global Instance M_ret : MRet M := fun A a st => (Ok a, st).

Global Instance M_bind : MBind M := fun A B f m st =>
  match m st with
  | (Ok a, st') => f a st'
  | (Raise e, st') => (Raise e, st')
  end.

Definition raise {A : Type} (e : exn) : M A := fun st => (Raise e, st).

(** [try: body / except ...: handler]; a handler re-raises what its
    clauses do not catch. *)
Definition try_except {A : Type} (body : M A) (handler : exn -> M A) : M A :=
  fun st =>
    match body st with
    | (Ok a, st') => (Ok a, st')
    | (Raise e, st') => handler e st'
    end.

(** [path.exists()], [path.read_text(encoding="utf-8")] and
    [path.write_text(text, encoding="utf-8")]. *)
Definition path_exists (p : string) : M bool :=
  fun st => (Ok (bool_decide (is_Some (files st !! p))), st).

Definition read_text (p : string) : M string :=
  fun st =>
    match files st !! p with
    | Some text => (Ok text, st)
    | None => (Raise (OSError "No such file or directory"), st)
    end.

Definition write_text (p : string) (text : string) : M unit :=
  fun st => (Ok tt, {| files := <[p := text]> (files st); trace := trace st |}).

(** [time.sleep(seconds)] first turns the length into a count of
    nanoseconds held in 64 bits, and only then looks at its sign: a whole
    number of seconds beyond [sleep_max], of either sign, is an
    [OverflowError]; after that a negative length is a [ValueError]. *)
Definition sleep_max : Z := 9223372036.   (* (2^63 - 1) / 10^9 *)

Definition sleep_refused (seconds : Z) : option exn :=
  if (seconds <? - sleep_max) || (sleep_max <? seconds)
  then Some (OverflowError "timestamp too large to convert to C _PyTime_t")
  else if seconds <? 0
  then Some (ValueError "sleep length must be non-negative")
  else None.

Definition sleep (seconds : Z) : M unit :=
  fun st =>
    match sleep_refused seconds with
    | Some e => (Raise e, st)
    | None => (Ok tt, {| files := files st; trace := trace st ++ [Sleep seconds] |})
    end.

(** ** The program *)

(** [classify_error(exc)] on an exception of the model, all of which have a
    message that [str(exc)] returns. *)
Definition classify_error (exc : exn) : StatusCode :=
  let msg := Str.lower (str_exn exc) in
  if Str.contains "429" msg || Str.contains "too many requests" msg
     || Str.contains "rate" msg
  then RATE_LIMIT
  else if Str.contains "age" msg && Str.contains "restrict" msg
  then AGE_LIMIT
  else UNKNOWN_ERROR.

(** A failure object as [classify_error] can be handed one: an exception
    with its message, or an object of a class whose [__str__] raises
    ([raised] is what it raises). *)
Inductive failure :=
| Printable (e : exn)
| StrRaises (raised : exn).

(** [str(exc)], as a call. *)
Definition str_call (exc : failure) : M string :=
  match exc return M string with
  | Printable e => mret (str_exn e)
  | StrRaises raised => raise raised
  end.

(** [classify_error(exc)], as a call on any failure object: the body of the
    function, [str(exc)] being the one step of it that can raise. *)
Definition classify_error_call (exc : failure) : M StatusCode :=
  text ← str_call exc;
  let msg := Str.lower text in
  mret (if Str.contains "429" msg || Str.contains "too many requests" msg
           || Str.contains "rate" msg
        then RATE_LIMIT
        else if Str.contains "age" msg && Str.contains "restrict" msg
        then AGE_LIMIT
        else UNKNOWN_ERROR).

(** The body of the loop [for line in lines] of [load_queue]; [None] is
    [continue] or a candidate that is not kept, [Some c] is
    [urls.append(c)]. *)
Definition queue_line (line : string) : option string :=
  let raw := Str.strip line in
  if String.eqb raw "" || Str.startswith raw "#" then None
  else
    let candidate :=
      match Re.group1 false MARKDOWN_LINK_RE raw with
      | Some g => g
      | None => raw
      end in
    if Re.found true YOUTUBE_URL_RE candidate then Some candidate else None.

(** The loop itself, [urls] being the list it appends to. *)
Fixpoint queue_lines (lines : list string) (urls : list string) : list string :=
  match lines with
  | [] => urls
  | line :: rest =>
      match queue_line line with
      | Some candidate => queue_lines rest (urls ++ [candidate])
      | None => queue_lines rest urls
      end
  end.

(** [load_queue(cfg)] *)
Definition load_queue (cfg : Config) : M (list string) :=
  found ← path_exists (queue_file cfg);
  if negb found then mret []
  else
    text ← read_text (queue_file cfg);
    mret (queue_lines (Str.splitlines text) []).

(** [append_failed(cfg, failed_urls)] *)
Definition append_failed (cfg : Config) (failed_urls : list string) : M unit :=
  match failed_urls return M unit with
  | [] => mret tt
  | _ =>
      found ← path_exists (failed_file cfg);
      existing ← (if found : bool
                  then text ← read_text (failed_file cfg); mret (Str.splitlines text)
                  else mret [] : M (list string));
      let merged := existing ++ failed_urls in
      write_text (failed_file cfg) (Str.join (String Str.LF "") merged +:+ String Str.LF "")
  end.

Section Program.

(** [json.loads(text)], [None] when it raises [JSONDecodeError], and
    [json.dumps(value, indent=2)]. *)
Variable json_loads : string -> option json.
Variable json_dumps : json -> string.

(** The block under [try] in [download_single] (the two calls of the
    download library and the folder made between them), by its outcome:
    it ends, or it raises.  The outcome may depend on the configuration,
    on what the run did before, and on the URL. *)
Variable ytdl : Config -> list event -> string -> result unit.

Definition try_block (u : string) (cfg : Config) : M unit :=
  fun st =>
    (ytdl cfg (trace st) u,
     {| files := files st; trace := trace st ++ [Attempt u] |}).

(** [load_log(cfg)] *)
Definition load_log (cfg : Config) : M (list json) :=
  found ← path_exists (log_file cfg);
  if negb found then mret []
  else
    try_except
      (text ← read_text (log_file cfg);
       data ← (match json_loads text return M json with
               | Some v => mret v
               | None => raise (ValueError "Expecting value")
               end);
       mret (match data with JList items => items | _ => [] end))
      (fun e => if is_Exception e then mret [] else raise e).

(** [persist_log(cfg, entries)] *)
Definition persist_log (cfg : Config) (entries : list json) : M unit :=
  write_text (log_file cfg) (json_dumps (JList entries)).

(** The three [except] clauses of [download_single], in their order: the
    new [last_status], or the exception raised again; what no clause
    catches goes on as it came. *)
Definition on_exception (e : exn) : result StatusCode :=
  match e with
  | DownloadError _ | ExtractorError _ => Ok (classify_error e)
  | KeyboardInterrupt => Raise e
  | OSError _ | ValueError _ | OverflowError _ | OtherException _ =>
      Ok (classify_error e)
  | OtherBaseException => Raise e
  end.

(** The loop [while attempts < cfg.max_retries] of [download_single]. *)
Equations? attempt_loop (cfg : Config) (u : string) (attempts : Z)
    (last_status : StatusCode) (st : state) : result (StatusCode * Z) * state
  by wf (Z.to_nat (max_retries cfg - attempts)) lt :=
attempt_loop cfg u attempts last_status st
  with Z_lt_dec attempts (max_retries cfg) := {
  | right _ => (Ok (last_status, attempts), st)
  | left _ with try_block u cfg st := {
    | (Ok _, st1) => (Ok (SUCCESS, attempts + 1 - 1), st1)
    | (Raise e, st1) with on_exception e := {
      | Raise e' => (Raise e', st1)
      | Ok last_status'
        with (if attempts + 1 <? max_retries cfg
              then sleep (retry_delay_seconds cfg) st1
              else (Ok tt, st1)) := {
        | (Ok _, st2) => attempt_loop cfg u (attempts + 1) last_status' st2
        | (Raise e', st2) => (Raise e', st2) } } } }.
Proof. all: lia. Qed.

(** [download_single(url, cfg)] *)
Definition download_single (u : string) (cfg : Config) : M (StatusCode * Z) :=
  attempt_loop cfg u 0 UNKNOWN_ERROR.

(** The loop [for url in urls] of [process_queue], with the two lists it
    appends to. *)
Fixpoint for_urls (cfg : Config) (now : string) (urls : list string)
    (log_entries : list json) (failed_urls : list string)
    : M (list json * list string) :=
  match urls with
  | [] => mret (log_entries, failed_urls)
  | u :: rest =>
      r ← download_single u cfg;
      let '(sc, attempts) := r in
      let success := bool_decide (sc = SUCCESS) in
      let status_text := if success then "downloaded" else "failed" in
      let retries_used := if success then Z.max 0 (attempts - 1) else attempts in
      let entry := {| url := u; status := status_text; status_code := sc;
                      retries := retries_used; date_created := now |} in
      for_urls cfg now rest
        (log_entries ++ [asdict entry])
        (if success then failed_urls else failed_urls ++ [u])
  end.

(** [process_queue(cfg)]; [utcnow] is what [datetime.utcnow().isoformat()]
    returns in this run.  The call [cfg.ensure_dirs()] that opens it only
    makes the download directory, which is no part of the state. *)
Definition process_queue (utcnow : string) (cfg : Config) : M unit :=
  urls ← load_queue cfg;
  match urls return M unit with
  | [] => mret tt
  | _ =>
      log_entries ← load_log cfg;
      let now := utcnow +:+ "Z" in
      r ← for_urls cfg now urls log_entries [];
      let '(log_entries, failed_urls) := r in
      _ ← append_failed cfg failed_urls;
      persist_log cfg log_entries
  end.

End Program.


(** ** What the specification says, in its own words *)

(** A message mentions a keyword when a part of it is the keyword up to the
    case of its letters. *)
Definition mentions (kw msg : string) : Prop :=
  exists pre mid post, msg = pre +:+ mid +:+ post /\ Str.lower mid = kw.

(** The three markers of a rate limit, and the two of an age limit. *)
Definition rate_limit_shaped (msg : string) : Prop :=
  mentions "429" msg \/ mentions "too many requests" msg \/ mentions "rate" msg.

Definition age_limit_shaped (msg : string) : Prop :=
  mentions "age" msg /\ mentions "restrict" msg.

(** The queue loader of the specification: a line is left out when it is
    blank or starts with [#] once trimmed; the candidate of a line is the
    first markdown link URL when the line has one, the trimmed line
    otherwise; a candidate is kept when the host pattern is found in it. *)
Definition is_blank (line : string) : bool := String.eqb (Str.strip line) "".

Definition is_comment (line : string) : bool := Str.startswith (Str.strip line) "#".

Definition candidate_of (line : string) : string :=
  match Re.group1 false MARKDOWN_LINK_RE (Str.strip line) with
  | Some link => link
  | None => Str.strip line
  end.

Definition is_video_url (candidate : string) : bool :=
  Re.found true YOUTUBE_URL_RE candidate.

Definition queue_spec (text : string) : list string :=
  List.filter is_video_url
    (List.map candidate_of
       (List.filter (fun line => negb (is_blank line || is_comment line))
          (Str.splitlines text))).

(** The log a run starts from, as the specification has it: the stored
    array, or nothing when the storage is absent, is not JSON, or is not
    an array. *)
Definition stored_log (json_loads : string -> option json)
    (storage : option string) : list json :=
  match storage with
  | None => []
  | Some text =>
      match json_loads text with
      | Some (JList items) => items
      | _ => []
      end
  end.

(** Every character of a text passes a test; a text without line boundary. *)
Fixpoint all_chars (p : ascii -> bool) (s : string) : bool :=
  match s with
  | EmptyString => true
  | String c s' => p c && all_chars p s'
  end.

Definition no_linebreak (s : string) : bool :=
  all_chars (fun c => negb (Str.islinebreak c)) s.

(** The group of a match holds only characters that pass the test. *)
Definition group_of (p : ascii -> bool) (cap : option string) : Prop :=
  match cap with
  | Some g => all_chars p g = true
  | None => True
  end.

(** The lines of the failure file in a state (none when there is no file). *)
Definition failed_lines (cfg : Config) (st : state) : list string :=
  match files st !! failed_file cfg with
  | Some text => Str.splitlines text
  | None => []
  end.

Definition is_attempt (e : event) : bool :=
  match e with Attempt _ => true | Sleep _ => false end.

Definition is_sleep (e : event) : bool :=
  match e with Sleep _ => true | Attempt _ => false end.

(** How many attempts, and how many pauses, a piece of history holds. *)
Definition count_attempts (t : list event) : nat := List.length (List.filter is_attempt t).

Definition count_sleeps (t : list event) : nat := List.length (List.filter is_sleep t).

(** The entries of a run that say [failed]. *)
Definition entry_failed (e : LogEntry) : bool := String.eqb (status e) "failed".

(** An entry says [downloaded] with SUCCESS, or [failed] with another code. *)
Definition entry_consistent (e : LogEntry) : Prop :=
  (status e = "downloaded" /\ status_code e = SUCCESS)
  \/ (status e = "failed" /\ status_code e <> SUCCESS).

(** The URLs of the queue file in a state. *)
Definition queued_urls (cfg : Config) (st : state) : list string :=
  match files st !! queue_file cfg with
  | Some text => queue_spec text
  | None => []
  end.

(** ** Scenarios: download libraries that follow a script, and a codec *)

(** The k-th attempt of the run (counted over the whole history) ends as
    the k-th item of the script says; past the script, attempts succeed. *)
Definition scripted (script : list (result unit))
    : Config -> list event -> string -> result unit :=
  fun _ t _ => nth (count_attempts t) script (Ok tt).

(** A library on which nothing ever downloads: every attempt raises [e]. *)
Definition always_raises (e : exn) : Config -> list event -> string -> result unit :=
  fun _ _ _ => Raise e.

Definition sample_url : string := "https://youtu.be/abc".

(** A file system with a queue of one URL and nothing else. *)
Definition one_url_queue : state :=
  {| files := {[ "queue.md" := sample_url ]}; trace := [] |}.

(** A queue file of six lines: a comment, a blank line, a URL of another
    site, a line with two markdown links, a plain URL in capitals between
    spaces, and a host that the pattern does not know. *)
Definition sample_queue_text : string :=
  Str.join (String Str.LF "")
    [ "# to watch";
      "   ";
      "https://vimeo.com/123";
      "- [One](https://youtube.com/watch?v=1) and [two](https://youtu.be/2)";
      "  HTTPS://WWW.YOUTUBE.COM/watch?v=3  ";
      "https://notyoutube.org/watch?v=4" ].

(** The first attempt of the run fails, the second goes through. *)
Definition flaky_once : Config -> list event -> string -> result unit :=
  scripted [Raise (DownloadError "HTTP Error 503: Service Unavailable"); Ok tt].

Definition rate_limited : Config -> list event -> string -> result unit :=
  always_raises (DownloadError "HTTP Error 429: Too Many Requests").

Definition never_found : Config -> list event -> string -> result unit :=
  always_raises (DownloadError "HTTP Error 404: Not Found").

(** [Config(max_retries=0)] *)
Definition Config_no_retry : Config := {|
  queue_file := "queue.md";
  failed_file := "failed.md";
  log_file := "log.json";
  downloads_dir := "downloads";
  max_retries := 0;
  retry_delay_seconds := 5;
  ytdlp_format := "bestvideo+bestaudio/best";
|}.

(** A [json] codec to run the program on: a value is written as the bits of
    its number in an enumeration of the values.  It is not the format of
    Python's [json]; it stands for it wherever only reading back what was
    written matters. *)
Fixpoint json_to_tree (v : json) : gen_tree (bool + Z + string) :=
  match v with
  | JNull => GenNode 0 []
  | JBool b => GenLeaf (inl (inl b))
  | JInt n => GenLeaf (inl (inr n))
  | JStr s => GenLeaf (inr s)
  | JList items => GenNode 1 (List.map json_to_tree items)
  | JDict fields =>
      GenNode 2 (List.map (fun kv => match kv with
                                     | (k, x) => GenNode 3 [GenLeaf (inr k); json_to_tree x]
                                     end) fields)
  end.

Fixpoint tree_to_json (t : gen_tree (bool + Z + string)) : json :=
  match t with
  | GenLeaf (inl (inl b)) => JBool b
  | GenLeaf (inl (inr n)) => JInt n
  | GenLeaf (inr s) => JStr s
  | GenNode 1 ts => JList (List.map tree_to_json ts)
  | GenNode 2 ts =>
      JDict (List.map (fun t' => match t' with
                                 | GenNode _ [GenLeaf (inr k); x] => (k, tree_to_json x)
                                 | _ => ("", JNull)
                                 end) ts)
  | GenNode _ _ => JNull
  end.

Fixpoint bits_of_pos (p : positive) : string :=
  match p with
  | xH => ""
  | xO q => String "0" (bits_of_pos q)
  | xI q => String "1" (bits_of_pos q)
  end.

Fixpoint pos_of_bits (s : string) : option positive :=
  match s with
  | EmptyString => Some xH
  | String c s' =>
      match pos_of_bits s' with
      | Some q =>
          if Ascii.eqb c "0" then Some (xO q)
          else if Ascii.eqb c "1" then Some (xI q)
          else None
      | None => None
      end
  end.

Definition bit_dumps (v : json) : string := bits_of_pos (encode (json_to_tree v)).

Definition bit_loads (s : string) : option json :=
  match pos_of_bits s with
  | Some p =>
      match decode p with
      | Some t => Some (tree_to_json t)
      | None => None
      end
  | None => None
  end.

Section json_induction.
Variable P : json -> Prop.
Hypothesis HNull : P JNull.
Hypothesis HBool : forall b, P (JBool b).
Hypothesis HInt : forall n, P (JInt n).
Hypothesis HStr : forall s, P (JStr s).
Hypothesis HList : forall items, Forall P items -> P (JList items).
Hypothesis HDict : forall fields, Forall (fun kv => P kv.2) fields -> P (JDict fields).

Fixpoint json_induction (v : json) : P v :=
  match v with
  | JNull => HNull
  | JBool b => HBool b
  | JInt n => HInt n
  | JStr s => HStr s
  | JList items =>
      HList items
        ((fix all (l : list json) : Forall P l :=
            match l with
            | [] => List.Forall_nil P
            | x :: l' => List.Forall_cons _ x l' (json_induction x) (all l')
            end) items)
  | JDict fields =>
      HDict fields
        ((fix all (l : list (string * json)) : Forall (fun kv => P kv.2) l :=
            match l with
            | [] => List.Forall_nil _
            | kv :: l' =>
                List.Forall_cons _ kv l'
                  (match kv return P kv.2 with (_, x) => json_induction x end)
                  (all l')
            end) fields)
  end.
End json_induction.

(** The state a run of the default configuration leaves, with that codec. *)
Definition state_after (ytdl : Config -> list event -> string -> result unit)
    (utcnow : string) (st : state) : state :=
  (process_queue bit_loads bit_dumps ytdl utcnow Config_default st).2.

(** ** More of the program, and the words to speak of it *)

(** [main()]: the run on the default configuration, an interrupt from the
    keyboard caught and reported. *)
Definition main (json_loads : string -> option json) (json_dumps : json -> string)
    (ytdl : Config -> list event -> string -> result unit) (utcnow : string) : M unit :=
  try_except
    (process_queue json_loads json_dumps ytdl utcnow Config_default)
    (fun e => match e with
              | KeyboardInterrupt => mret tt
              | _ => raise e
              end).

(** [j] attempts on a URL that failed, each followed by its pause. *)
Fixpoint rounds (u : string) (d : Z) (j : nat) : list event :=
  match j with
  | O => []
  | S j' => Attempt u :: Sleep d :: rounds u d j'
  end.

(** How a call of the retry loop can end, started with [attempts] attempts
    counted and [last_status] in hand: what it returns or raises, and the
    state it leaves. *)
Definition loop_post (ytdl : Config -> list event -> string -> result unit)
    (cfg : Config) (u : string) (attempts : Z) (last_status : StatusCode)
    (st : state) (r : result (StatusCode * Z)) (st' : state) : Prop :=
  let d := retry_delay_seconds cfg in
  files st' = files st
  /\ match r with
     | Ok (sc, k) =>
         (* an attempt went through after j failures *)
         (exists j : nat,
             sc = SUCCESS /\ k = attempts + Z.of_nat j /\ k < max_retries cfg
             /\ trace st' = trace st ++ rounds u d j ++ [Attempt u]
             /\ ytdl cfg (trace st ++ rounds u d j) u = Ok tt)
         (* no budget left at the start *)
         \/ (max_retries cfg <= attempts /\ sc = last_status /\ k = attempts /\ st' = st)
         (* the budget ran out on a failure *)
         \/ (attempts < max_retries cfg /\ k = max_retries cfg
             /\ exists e,
                 sc = classify_error e /\ is_Exception e = true
                 /\ trace st' = trace st
                      ++ rounds u d (Z.to_nat (max_retries cfg - attempts - 1))
                      ++ [Attempt u]
                 /\ ytdl cfg (trace st
                              ++ rounds u d (Z.to_nat (max_retries cfg - attempts - 1))) u
                    = Raise e)
     | Raise e =>
         (* an attempt raised what no clause catches *)
         (exists j : nat,
             is_Exception e = false /\ attempts + Z.of_nat j < max_retries cfg
             /\ trace st' = trace st ++ rounds u d j ++ [Attempt u]
             /\ ytdl cfg (trace st ++ rounds u d j) u = Raise e)
         (* the first pause raised *)
         \/ (sleep_refused d = Some e /\ attempts + 1 < max_retries cfg
             /\ trace st' = trace st ++ [Attempt u])
     end.

(** What a run records for a URL, the time of the run being [now]: a
    download with SUCCESS and a count of retries below the budget, or a
    failure with another code and as many retries as the budget allows
    attempts. *)
Definition entry_recorded (cfg : Config) (now : string) (e : LogEntry) : Prop :=
  date_created e = now
  /\ ((status e = "downloaded" /\ status_code e = SUCCESS
       /\ 0 <= retries e < max_retries cfg)
      \/ (status e = "failed" /\ status_code e <> SUCCESS
          /\ retries e = Z.max 0 (max_retries cfg))).

(** The entry of a URL that downloaded at once, and of one never tried. *)
Definition entry_downloaded (now u : string) : LogEntry :=
  {| url := u; status := "downloaded"; status_code := SUCCESS;
     retries := 0; date_created := now |}.

Definition entry_untried (now u : string) : LogEntry :=
  {| url := u; status := "failed"; status_code := UNKNOWN_ERROR;
     retries := 0; date_created := now |}.


Definition always_works : Config -> list event -> string -> result unit :=
  scripted [].

(** [Config(retry_delay_seconds=-1)] *)
Definition Config_negative_delay : Config := {|
  queue_file := "queue.md";
  failed_file := "failed.md";
  log_file := "log.json";
  downloads_dir := "downloads";
  max_retries := 3;
  retry_delay_seconds := -1;
  ytdlp_format := "bestvideo+bestaudio/best";
|}.

(** [Config(retry_delay_seconds=10**30)] *)
Definition Config_huge_delay : Config := {|
  queue_file := "queue.md";
  failed_file := "failed.md";
  log_file := "log.json";
  downloads_dir := "downloads";
  max_retries := 3;
  retry_delay_seconds := 10 ^ 30;
  ytdlp_format := "bestvideo+bestaudio/best";
|}.

(** What it is for a pattern to match at the start of a text: [Match ic r s
    cap rest cap'] says that [r] reads a prefix of [s] and leaves [rest],
    the group going from [cap] to [cap'].  It says which matches exist, not
    which one the matcher tries first. *)
Inductive Match (ic : bool)
    : Re.re -> string -> option string -> string -> option string -> Prop :=
| Match_Eps s c : Match ic Re.Eps s c s c
| Match_One i d s c :
    Re.item_matches ic i d = true -> Match ic (Re.One i) (String d s) c s c
| Match_Many_last i d s c :
    Re.item_matches ic i d = true -> Match ic (Re.Many i) (String d s) c s c
| Match_Many_more i d s c rest c' :
    Re.item_matches ic i d = true ->
    Match ic (Re.Many i) s c rest c' ->
    Match ic (Re.Many i) (String d s) c rest c'
| Match_Cat r1 r2 s c s1 c1 s2 c2 :
    Match ic r1 s c s1 c1 -> Match ic r2 s1 c1 s2 c2 ->
    Match ic (Re.Cat r1 r2) s c s2 c2
| Match_Alt_l r1 r2 s c rest c' :
    Match ic r1 s c rest c' -> Match ic (Re.Alt r1 r2) s c rest c'
| Match_Alt_r r1 r2 s c rest c' :
    Match ic r2 s c rest c' -> Match ic (Re.Alt r1 r2) s c rest c'
| Match_Opt_some r s c rest c' :
    Match ic r s c rest c' -> Match ic (Re.Opt r) s c rest c'
| Match_Opt_none r s c : Match ic (Re.Opt r) s c s c
| Match_Group r s c rest c' :
    Match ic r s c rest c' ->
    Match ic (Re.Group r) s c rest (Some (Re.consumed s rest)).

(** The texts, in lower case, that a pattern without [+] and without class
    matches when case is ignored (a pattern with either has none here). *)
Fixpoint lang (r : Re.re) : list string :=
  match r with
  | Re.Eps => [""]
  | Re.One (Re.Lit c) => [String (Str.lower_char c) ""]
  | Re.One (Re.NoneOf _) => []
  | Re.Many _ => []
  | Re.Cat r1 r2 =>
      List.flat_map (fun a => List.map (fun b => a +:+ b) (lang r2)) (lang r1)
  | Re.Alt r1 r2 => lang r1 ++ lang r2
  | Re.Opt r1 => lang r1 ++ [""]
  | Re.Group r1 => lang r1
  end.

(** A pattern made of literal characters only. *)
Fixpoint literal_only (r : Re.re) : bool :=
  match r with
  | Re.Eps => true
  | Re.One (Re.Lit _) => true
  | Re.One (Re.NoneOf _) => false
  | Re.Many _ => false
  | Re.Cat r1 r2 | Re.Alt r1 r2 => literal_only r1 && literal_only r2
  | Re.Opt r1 | Re.Group r1 => literal_only r1
  end.

(** The eight shapes [YOUTUBE_URL_RE] looks for, in lower case. *)
Definition youtube_prefixes : list string :=
  [ "https://www.youtube.com/"; "https://www.youtu.be/";
    "https://youtube.com/"; "https://youtu.be/";
    "http://www.youtube.com/"; "http://www.youtu.be/";
    "http://youtube.com/"; "http://youtu.be/" ].

(** The start of a URL as [MARKDOWN_LINK_RE] takes it from a link: a scheme,
    then at least one character, none of them a space or a closing
    parenthesis. *)
Definition link_url (g : string) : Prop :=
  exists tail : string,
    (g = "http://" +:+ tail \/ g = "https://" +:+ tail)
    /\ tail <> ""
    /\ all_chars (fun c => negb (space_or_close c)) tail = true.

(** ** The queue loader, in the words of the specification *)

(** [shape] is read in [text] whatever the case of the letters: the two are
    as long, and character by character the same under the comparison
    [re.IGNORECASE] makes ([Re.same_letter], not [str.lower]: the two part
    beyond code point 255). *)
Fixpoint reads_as (shape text : string) : bool :=
  match shape, text with
  | EmptyString, EmptyString => true
  | String p shape', String d text' => Re.same_letter p d && reads_as shape' text'
  | _, _ => false
  end.

(** The recognized video-host URL pattern: somewhere in the candidate stands
    a scheme (http or https), "://", "www." or nothing, one of the two
    hosts, and "/", the case of the letters left aside. *)
Definition video_host_url (candidate : string) : Prop :=
  exists shape pre mid post,
    In shape youtube_prefixes
    /\ candidate = pre +:+ mid +:+ post
    /\ reads_as shape mid = true.

(** A markdown link of a line: after [pre], a URL [g] between parentheses. *)
Definition link_at (raw pre g post : string) : Prop :=
  raw = pre +:+ "(" +:+ g +:+ ")" +:+ post /\ link_url g.

Definition has_link (raw : string) : Prop :=
  exists pre g post, link_at raw pre g post.

(** The first markdown-link URL of a line: the URL of the link that starts
    before every other. *)
Definition first_link (raw g : string) : Prop :=
  exists pre post,
    link_at raw pre g post
    /\ forall pre' g' post',
         link_at raw pre' g' post' -> (String.length pre <= String.length pre')%nat.

(** The candidate of a trimmed line: its first markdown-link URL when it has
    a link, the line itself otherwise. *)
Definition candidate_is (raw c : string) : Prop :=
  first_link raw c \/ (~ has_link raw /\ c = raw).

(** What a line of the queue file yields: nothing when, trimmed, it is blank
    or starts with "#"; otherwise its candidate when the candidate matches
    the video-host pattern, and nothing when it does not. *)
Definition line_yields (line : string) (o : option string) : Prop :=
  let raw := Str.strip line in
  ((raw = "" \/ exists rest, raw = "#" +:+ rest) /\ o = None)
  \/ (raw <> "" /\ (forall rest, raw <> "#" +:+ rest)
      /\ exists c, candidate_is raw c
                   /\ ((video_host_url c /\ o = Some c)
                       \/ (~ video_host_url c /\ o = None))).

(** The URLs of a sequence of outcomes, in order. *)
Fixpoint yielded (outcomes : list (option string)) : list string :=
  match outcomes with
  | [] => []
  | Some u :: rest => u :: yielded rest
  | None :: rest => yielded rest
  end.

(** [c.isascii()] on one character. *)
Definition is_ascii (c : ascii) : bool := (Str.code c <? 128)%N.

(** [c.isalnum()] on one character below 256: the letters and digits of
    ASCII, the Latin-1 letters, and the superscript digits and fractions
    that [isdigit] and [isnumeric] accept. *)
Definition isalnum (c : ascii) : bool :=
  let n := Str.code c in
  (((48 <=? n) && (n <=? 57)) || ((65 <=? n) && (n <=? 90))
   || ((97 <=? n) && (n <=? 122))
   || (n =? 170) || (n =? 178) || (n =? 179) || (n =? 181) || (n =? 185)
   || (n =? 186) || ((188 <=? n) && (n <=? 190))
   || ((192 <=? n) && (n <=? 214)) || ((216 <=? n) && (n <=? 246))
   || ((248 <=? n) && (n <=? 255)))%N.

(** The test of the title's characters in [download_single]:
    [c.isalnum() or c in (' ', '-', '_')]. *)
Definition kept_in_folder_name (c : ascii) : bool :=
  isalnum c || Ascii.eqb c " " || Ascii.eqb c "-" || Ascii.eqb c "_".

(** [folder_name] of [download_single]: the title with every other
    character replaced by an underscore. *)
Fixpoint folder_name (title : string) : string :=
  match title with
  | EmptyString => EmptyString
  | String c title' =>
      String (if kept_in_folder_name c then c else "_"%char) (folder_name title')
  end.

(** ** Facts about strings *)

#[local] Arguments String.append !_ _ / : simpl nomatch.

Lemma append_nil_r (s : string) : s +:+ "" = s.
Proof. induction s as [| c s IH]; simpl; [reflexivity | now rewrite IH]. Qed.

Lemma append_assoc (a b c : string) : (a +:+ b) +:+ c = a +:+ (b +:+ c).
Proof. induction a as [| x a IH]; simpl; [reflexivity | now rewrite IH]. Qed.

Lemma startswith_spec (s pre : string) :
  Str.startswith s pre = true <-> exists rest, s = pre +:+ rest.
Proof.
  revert s. induction pre as [| p pre IH]; intros s; simpl.
  - split; [intros _; now exists s | reflexivity].
  - destruct s as [| c s].
    + split; [discriminate | intros [rest H]; discriminate].
    + destruct (Ascii.eqb_spec p c) as [-> | Hne].
      * rewrite IH. split; intros [rest H]; exists rest; [now rewrite H | now injection H].
      * split; [discriminate | intros [rest H]; injection H; congruence].
Qed.

Lemma contains_spec (sub s : string) :
  Str.contains sub s = true <-> exists a b, s = a +:+ sub +:+ b.
Proof.
  induction s as [| c s IH].
  - simpl. rewrite orb_false_r, startswith_spec. split.
    + intros [rest H]. now exists "", rest.
    + intros [a [b H]]. destruct a; [now exists b | discriminate].
  - cbn [Str.contains]. rewrite orb_true_iff, startswith_spec, IH. split.
    + intros [[rest H] | [a [b H]]].
      * now exists "", rest.
      * exists (String c a), b. simpl. now rewrite H.
    + intros [a [b H]]. destruct a as [| x a].
      * left. now exists b.
      * right. injection H as _ H. now exists a, b.
Qed.

Lemma lower_app (a b : string) : Str.lower (a +:+ b) = Str.lower a +:+ Str.lower b.
Proof. induction a as [| x a IH]; simpl; [reflexivity | now rewrite IH]. Qed.

Lemma lower_split (s a b : string) :
  Str.lower s = a +:+ b ->
  exists a' b', s = a' +:+ b' /\ Str.lower a' = a /\ Str.lower b' = b.
Proof.
  revert s. induction a as [| x a IH]; intros s H.
  - now exists "", s.
  - destruct s as [| c s]; [discriminate |].
    simpl in H. injection H as Hx H.
    destruct (IH s H) as [a' [b' [-> [Ha Hb]]]].
    exists (String c a'), b'. simpl. now rewrite Hx, Ha.
Qed.

(** [kw in msg.lower()] is what [mentions] says. *)
Lemma contains_lower_mentions (kw msg : string) :
  Str.contains kw (Str.lower msg) = true <-> mentions kw msg.
Proof.
  rewrite contains_spec. unfold mentions. split.
  - intros [a [b H]].
    apply lower_split in H as [pre [rest [-> [_ H]]]].
    apply lower_split in H as [mid [post [-> [Hmid _]]]].
    now exists pre, mid, post.
  - intros [pre [mid [post [-> Hmid]]]].
    exists (Str.lower pre), (Str.lower post).
    now rewrite !lower_app, Hmid.
Qed.

Lemma contains_lower_not_mentions (kw msg : string) :
  Str.contains kw (Str.lower msg) = false <-> ~ mentions kw msg.
Proof.
  rewrite <- contains_lower_mentions. now destruct (Str.contains _ _).
Qed.

(** *** Lines: [splitlines] reads back what [join] wrote *)

Lemma all_chars_app p (a b : string) :
  all_chars p (a +:+ b) = all_chars p a && all_chars p b.
Proof. induction a as [| x a IH]; simpl; [reflexivity | now rewrite IH, andb_assoc]. Qed.

Lemma CR_islinebreak (c : ascii) : Ascii.eqb c Str.CR = true -> Str.islinebreak c = true.
Proof. intros H. apply Ascii.eqb_eq in H. now subst c. Qed.

Lemma splitlines_from_app (l cur rest : string) :
  no_linebreak l = true ->
  Str.splitlines_from cur (l +:+ rest) = Str.splitlines_from (cur +:+ l) rest.
Proof.
  revert cur. induction l as [| c l IH]; intros cur Hl.
  - now rewrite append_nil_r.
  - simpl in Hl. apply andb_prop in Hl as [Hc Hl].
    change (String c l +:+ rest) with (String c (l +:+ rest)).
    cbn [Str.splitlines_from].
    destruct (Ascii.eqb c Str.CR) eqn:Hcr.
    { apply CR_islinebreak in Hcr. now rewrite Hcr in Hc. }
    destruct (Str.islinebreak c); [discriminate |].
    rewrite IH by assumption. now rewrite append_assoc.
Qed.

Lemma splitlines_from_LF (cur rest : string) :
  Str.splitlines_from cur (String Str.LF rest) = cur :: Str.splitlines_from "" rest.
Proof. reflexivity. Qed.

Lemma splitlines_join (ls : list string) :
  ls <> [] ->
  Forall (fun l => no_linebreak l = true) ls ->
  Str.splitlines (Str.join (String Str.LF "") ls +:+ String Str.LF "") = ls.
Proof.
  unfold Str.splitlines.
  induction ls as [| p rest IH]; intros Hne Hall; [congruence |].
  inversion Hall as [| ? ? Hp Hrest]; subst.
  destruct rest as [| q rest].
  - simpl. now rewrite splitlines_from_app, splitlines_from_LF.
  - change (Str.join (String Str.LF "") (p :: q :: rest))
      with (p +:+ String Str.LF "" +:+ Str.join (String Str.LF "") (q :: rest)).
    rewrite append_assoc, splitlines_from_app by assumption.
    change ((String Str.LF "" +:+ Str.join (String Str.LF "") (q :: rest)) +:+ String Str.LF "")
      with (String Str.LF (Str.join (String Str.LF "") (q :: rest) +:+ String Str.LF "")).
    rewrite splitlines_from_LF, IH; [reflexivity | discriminate | assumption].
Qed.

(** No line of [splitlines] holds a line boundary. *)
Lemma splitlines_from_no_linebreak (s : string) :
  (forall cur, no_linebreak cur = true ->
     Forall (fun l => no_linebreak l = true) (Str.splitlines_from cur s))
  /\ (forall c cur, no_linebreak cur = true ->
        Forall (fun l => no_linebreak l = true) (Str.splitlines_from cur (String c s))).
Proof.
  assert (Hsnoc : forall cur c, no_linebreak cur = true -> Str.islinebreak c = false ->
            no_linebreak (cur +:+ String c "") = true).
  { intros cur c Hcur Hc. unfold no_linebreak in *.
    rewrite all_chars_app, Hcur. simpl. now rewrite Hc. }
  induction s as [| d s [IH1 IH2]].
  - split.
    + intros cur Hcur. simpl. destruct cur; constructor; [assumption | constructor].
    + intros c cur Hcur. cbn [Str.splitlines_from].
      destruct (Ascii.eqb c Str.CR); [repeat constructor; assumption |].
      destruct (Str.islinebreak c) eqn:Hc; [repeat constructor; assumption |].
      simpl. destruct (cur +:+ String c "") eqn:He; constructor; [| constructor].
      rewrite <- He. now apply Hsnoc.
  - split; [exact (IH2 d) |].
    intros c cur Hcur. cbn [Str.splitlines_from].
    destruct (Ascii.eqb c Str.CR).
    { destruct (Ascii.eqb d Str.LF); constructor; auto.
      apply (IH2 d). reflexivity. }
    destruct (Str.islinebreak c) eqn:Hc.
    { constructor; [assumption |]. apply (IH2 d). reflexivity. }
    apply (IH2 d). now apply Hsnoc.
Qed.

Lemma splitlines_no_linebreak (s : string) :
  Forall (fun l => no_linebreak l = true) (Str.splitlines s).
Proof. now apply (proj1 (splitlines_from_no_linebreak s)). Qed.

(** *** What trimming and the patterns keep of a text *)

Lemma all_chars_lstrip p (s : string) :
  all_chars p s = true -> all_chars p (Str.lstrip s) = true.
Proof.
  induction s as [| c s IH]; simpl; [easy |].
  intros H. destruct (Str.isspace c); [| exact H].
  apply andb_prop in H as [_ H]. now apply IH.
Qed.

Lemma all_chars_rstrip p (s : string) :
  all_chars p s = true -> all_chars p (Str.rstrip s) = true.
Proof.
  induction s as [| c s IH]; simpl; [easy |].
  intros H. apply andb_prop in H as [Hc H]. specialize (IH H).
  destruct (Str.rstrip s).
  - destruct (Str.isspace c); simpl; [reflexivity | now rewrite Hc].
  - simpl. rewrite Hc. exact IH.
Qed.

Lemma all_chars_strip p (s : string) :
  all_chars p s = true -> all_chars p (Str.strip s) = true.
Proof. intros H. now apply all_chars_rstrip, all_chars_lstrip. Qed.

Lemma all_chars_substring p (s : string) (n : nat) :
  all_chars p s = true -> all_chars p (String.substring 0 n s) = true.
Proof.
  revert n. induction s as [| c s IH]; intros n H.
  - now destruct n.
  - destruct n as [| n]; [reflexivity |].
    simpl in *. apply andb_prop in H as [Hc H]. now rewrite Hc, IH.
Qed.

Lemma matcher_group {A : Type} p (ic : bool) (r : Re.re) :
  forall (s : string) (cap : option string) (k : string -> option string -> option A) (x : A),
    all_chars p s = true -> group_of p cap ->
    Re.matcher ic r s cap k = Some x ->
    exists s1 cap1, all_chars p s1 = true /\ group_of p cap1 /\ k s1 cap1 = Some x.
Proof.
  induction r as [| i | i | r1 IH1 r2 IH2 | r1 IH1 r2 IH2 | r1 IH1 | r1 IH1];
    intros s cap k x Hs Hcap Hm; simpl in Hm.
  - eauto.
  - destruct s as [| d s]; [discriminate |].
    destruct (Re.item_matches ic i d); [| discriminate].
    simpl in Hs. apply andb_prop in Hs as [_ Hs]. eauto.
  - induction s as [| d s IHs]; [discriminate |].
    destruct (Re.item_matches ic i d); [| discriminate].
    simpl in Hs. apply andb_prop in Hs as [_ Hs].
    match type of Hm with match ?m with _ => _ end = _ => destruct m eqn:Hmany end.
    + apply IHs; [assumption |]. now rewrite <- Hm.
    + eauto.
  - apply IH1 in Hm as [s1 [cap1 [Hs1 [Hcap1 Hm]]]]; [| assumption ..].
    now apply IH2 in Hm.
  - destruct (Re.matcher ic r1 s cap k) eqn:H1.
    + apply (IH1 s cap k); congruence.
    + now apply (IH2 s cap k).
  - destruct (Re.matcher ic r1 s cap k) eqn:H1.
    + apply (IH1 s cap k); congruence.
    + eauto.
  - apply IH1 in Hm as [s1 [cap1 [Hs1 [_ Hm]]]]; [| assumption ..].
    exists s1, (Some (Re.consumed s s1)). repeat split; [assumption | | assumption].
    now apply all_chars_substring.
Qed.

Lemma search_group p (ic : bool) (r : Re.re) (s : string) (cap : option string) :
  all_chars p s = true -> Re.search ic r s = Some cap -> group_of p cap.
Proof.
  induction s as [| c s IH]; intros Hs H; simpl in H.
  - destruct (Re.matcher ic r "" None _) eqn:Hm; [| discriminate].
    apply (matcher_group p) in Hm as [s1 [cap1 [_ [Hc Hk]]]]; simpl; auto.
    congruence.
  - destruct (Re.matcher ic r (String c s) None _) eqn:Hm.
    + apply (matcher_group p) in Hm as [s1 [cap1 [_ [Hc Hk]]]]; simpl; auto.
      congruence.
    + simpl in Hs. apply andb_prop in Hs as [_ Hs]. now apply IH.
Qed.

Lemma candidate_of_all_chars p (line : string) :
  all_chars p line = true -> all_chars p (candidate_of line) = true.
Proof.
  intros H. apply (all_chars_strip p) in H.
  unfold candidate_of, Re.group1.
  destruct (Re.search false MARKDOWN_LINK_RE (Str.strip line)) as [[g |] |] eqn:Hs;
    try assumption.
  now apply (search_group p) in Hs.
Qed.

(** No URL of a queue holds a line boundary. *)
Lemma queue_spec_no_linebreak (text : string) :
  Forall (fun u => no_linebreak u = true) (queue_spec text).
Proof.
  unfold queue_spec. rewrite List.Forall_forall. intros u Hu.
  apply List.filter_In in Hu as [Hu _].
  apply List.in_map_iff in Hu as [line [<- Hline]].
  apply List.filter_In in Hline as [Hline _].
  apply candidate_of_all_chars.
  pose proof (splitlines_no_linebreak text) as Hall.
  rewrite List.Forall_forall in Hall. now apply Hall.
Qed.

(** ** The error classifier *)

Ltac case_contains :=
  repeat match goal with
    | |- context [Str.contains ?kw (Str.lower ?m)] =>
        let H := fresh "H" in
        destruct (Str.contains kw (Str.lower m)) eqn:H;
        [apply contains_lower_mentions in H | apply contains_lower_not_mentions in H]
    end.

(** C2 (amended): the classifier answers RATE_LIMIT exactly on the messages
    that mention "429", "too many requests" or "rate"; AGE_LIMIT exactly on
    the messages that mention none of these and mention both "age" and
    "restrict"; UNKNOWN_ERROR exactly on the others; a keyword is mentioned
    whatever the case of its letters in the message. *)
Theorem C2_classify_error_table (exc : exn) :
  (classify_error exc = RATE_LIMIT <-> rate_limit_shaped (str_exn exc))
  /\ (classify_error exc = AGE_LIMIT <->
        ~ rate_limit_shaped (str_exn exc) /\ age_limit_shaped (str_exn exc))
  /\ (classify_error exc = UNKNOWN_ERROR <->
        ~ rate_limit_shaped (str_exn exc) /\ ~ age_limit_shaped (str_exn exc)).
Proof.
  unfold classify_error, rate_limit_shaped, age_limit_shaped.
  case_contains; simpl; intuition congruence.
Qed.

(** C2 as the specification words it fails twice.  "Too Many Requests"
    mentions neither "429" nor the two age markers, and is RATE_LIMIT, not
    UNKNOWN_ERROR; "HTTP Error 429: age-restricted" mentions both "age" and
    "restrict", and is RATE_LIMIT, not AGE_LIMIT. *)
Lemma C2_counterexample :
  (~ mentions "429" "Too Many Requests"
   /\ ~ age_limit_shaped "Too Many Requests"
   /\ classify_error (DownloadError "Too Many Requests") = RATE_LIMIT)
  /\ (age_limit_shaped "HTTP Error 429: age-restricted"
      /\ classify_error (DownloadError "HTTP Error 429: age-restricted") = RATE_LIMIT).
Proof.
  unfold age_limit_shaped. repeat split.
  - now apply contains_lower_not_mentions.
  - intros [H _]. now apply contains_lower_mentions in H.
  - now apply contains_lower_mentions.
  - now apply contains_lower_mentions.
Qed.

(** On an exception with its message, the call of the classifier is the
    function [classify_error]. *)
Lemma classify_error_call_Printable (e : exn) (st : state) :
  classify_error_call (Printable e) st = (Ok (classify_error e), st).
Proof. reflexivity. Qed.

(** C8 as the specification words it fails: the classifier is handed any
    failure object, and on one whose [__str__] raises, its first step
    [str(exc)] raises, and so does the call. *)
Lemma C8_counterexample :
  classify_error_call (StrRaises (OtherException "__str__ failed"))
    {| files := ∅; trace := [] |}
  = (Raise (OtherException "__str__ failed"), {| files := ∅; trace := [] |}).
Proof. reflexivity. Qed.

(** C8, amended.  On a failure object whose message [str(exc)] returns, a
    call of the classifier raises nothing, leaves the state as it found it,
    and returns one status code: one of the three failure codes, RATE_LIMIT
    exactly when the message has the shape of a rate limit, AGE_LIMIT
    exactly when it has not and has the shape of an age limit.  On an object
    whose [__str__] raises, the call raises what [__str__] raised. *)
Theorem C8_classify_error_when_str_returns (exc : failure) (st : state) :
  match exc with
  | Printable e =>
      exists sc : StatusCode,
        classify_error_call exc st = (Ok sc, st)
        /\ (sc = RATE_LIMIT \/ sc = AGE_LIMIT \/ sc = UNKNOWN_ERROR)
        /\ (sc = RATE_LIMIT <-> rate_limit_shaped (str_exn e))
        /\ (sc = AGE_LIMIT <->
              ~ rate_limit_shaped (str_exn e) /\ age_limit_shaped (str_exn e))
  | StrRaises raised => classify_error_call exc st = (Raise raised, st)
  end.
Proof.
  destruct exc as [e | raised]; [| reflexivity].
  exists (classify_error e). split; [reflexivity |].
  unfold classify_error, rate_limit_shaped, age_limit_shaped.
  case_contains; simpl; intuition congruence.
Qed.

(** ** The queue loader *)

Lemma queue_line_spec (line : string) :
  queue_line line =
  if negb (is_blank line || is_comment line) && is_video_url (candidate_of line)
  then Some (candidate_of line) else None.
Proof.
  unfold queue_line, is_blank, is_comment, is_video_url, candidate_of.
  destruct (_ || _); simpl; [reflexivity |].
  destruct (Re.group1 _ _ _); reflexivity.
Qed.

Lemma queue_lines_spec (lines urls : list string) :
  queue_lines lines urls =
  urls ++ List.filter is_video_url
            (List.map candidate_of
               (List.filter (fun line => negb (is_blank line || is_comment line)) lines)).
Proof.
  revert urls. induction lines as [| line rest IH]; intros urls; simpl.
  - now rewrite app_nil_r.
  - rewrite queue_line_spec.
    destruct (negb (is_blank line || is_comment line)); simpl.
    + destruct (is_video_url (candidate_of line)); rewrite IH; [| reflexivity].
      now rewrite <- app_assoc.
    + apply IH.
Qed.

(** The queue loader, as a function of the state. *)
Lemma load_queue_effect (cfg : Config) (st : state) :
  load_queue cfg st = (Ok (queued_urls cfg st), st).
Proof.
  unfold load_queue, queued_urls, queue_spec, mbind, M_bind, path_exists,
    read_text, mret, M_ret.
  destruct (files st !! queue_file cfg) as [text |] eqn:Hq; simpl.
  - rewrite Hq. now rewrite queue_lines_spec.
  - reflexivity.
Qed.

(** The line of the specification's example yields its URL and nothing else. *)
Example queue_spec_markdown_line :
  queue_spec "[Title](https://youtube.com/watch?v=X)" = ["https://youtube.com/watch?v=X"].
Proof. reflexivity. Qed.

Section Facts.

Variable json_loads : string -> option json.
Variable json_dumps : json -> string.
Variable ytdl : Config -> list event -> string -> result unit.

(** ** The run recorder: loading the log *)

(** Loading the log, as a function of the state. *)
Lemma load_log_effect (cfg : Config) (st : state) :
  load_log json_loads cfg st =
  (Ok (stored_log json_loads (files st !! log_file cfg)), st).
Proof.
  unfold load_log, stored_log, try_except, mbind, M_bind, path_exists,
    read_text, raise, mret, M_ret.
  destruct (files st !! log_file cfg) as [text |] eqn:Hlog; simpl; [| reflexivity].
  rewrite Hlog. destruct (json_loads text) as [[] |]; reflexivity.
Qed.

(** C7: loading the log never raises and changes nothing; it returns the
    stored array, and the empty log when the storage is absent, is not
    JSON, or is not an array. *)
Theorem C7_load_log_total (cfg : Config) (st : state) :
  exists items : list json,
    load_log json_loads cfg st = (Ok items, st)
    /\ items = stored_log json_loads (files st !! log_file cfg)
    /\ (files st !! log_file cfg = None -> items = [])
    /\ (forall text, files st !! log_file cfg = Some text ->
          json_loads text = None -> items = []).
Proof.
  exists (stored_log json_loads (files st !! log_file cfg)).
  split; [apply load_log_effect | split; [reflexivity |]].
  split.
  - now intros ->.
  - intros text -> Hbad. simpl. now rewrite Hbad.
Qed.

(** ** The retry loop *)

Lemma classify_error_not_SUCCESS (e : exn) : classify_error e <> SUCCESS.
Proof.
  unfold classify_error.
  destruct (_ || _); [discriminate |]. destruct (_ && _); discriminate.
Qed.

Lemma on_exception_Ok (e : exn) (sc : StatusCode) :
  on_exception e = Ok sc -> sc = classify_error e /\ is_Exception e = true.
Proof. destruct e; simpl; intros H; inversion H; auto. Qed.

Lemma on_exception_Exception (e : exn) :
  is_Exception e = true -> on_exception e = Ok (classify_error e).
Proof. destruct e; simpl; intros H; try reflexivity; discriminate. Qed.

Lemma attempt_loop_eq cfg u attempts last_status st :
  attempt_loop ytdl cfg u attempts last_status st =
  if attempts <? max_retries cfg then
    match ytdl cfg (trace st) u with
    | Ok _ =>
        (Ok (SUCCESS, attempts + 1 - 1),
         {| files := files st; trace := trace st ++ [Attempt u] |})
    | Raise e =>
        match on_exception e with
        | Raise e' => (Raise e', {| files := files st; trace := trace st ++ [Attempt u] |})
        | Ok last_status' =>
            match (if attempts + 1 <? max_retries cfg
                   then sleep (retry_delay_seconds cfg)
                          {| files := files st; trace := trace st ++ [Attempt u] |}
                   else (Ok tt, {| files := files st; trace := trace st ++ [Attempt u] |})) with
            | (Ok _, st2) => attempt_loop ytdl cfg u (attempts + 1) last_status' st2
            | (Raise e', st2) => (Raise e', st2)
            end
        end
    end
  else (Ok (last_status, attempts), st).
Proof.
  simp attempt_loop.
  destruct (Z_lt_dec attempts (max_retries cfg)) as [Hlt | Hge]; simpl.
  - rewrite (proj2 (Z.ltb_lt _ _) Hlt).
    destruct (ytdl cfg (trace st) u) as [[] | e]; simpl; [reflexivity |].
    destruct (on_exception e) as [ls | e']; simpl; [| reflexivity].
    destruct (attempts + 1 <? max_retries cfg); [| reflexivity].
    destruct (sleep _ _) as [[[] | e'] st2]; reflexivity.
  - rewrite (proj2 (Z.ltb_ge _ _)) by lia. reflexivity.
Qed.

(** A pause adds one event, or raises and adds nothing. *)
Lemma sleep_effect (d : Z) (st : state) :
  sleep d st =
  match sleep_refused d with
  | Some e => (Raise e, st)
  | None => (Ok tt, {| files := files st; trace := trace st ++ [Sleep d] |})
  end.
Proof. reflexivity. Qed.


Lemma sleep_refused_Exception (d : Z) (e : exn) :
  sleep_refused d = Some e -> is_Exception e = true.
Proof.
  unfold sleep_refused.
  destruct (_ || _); [intros H; injection H as <-; reflexivity |].
  destruct (d <? 0); [intros H; injection H as <-; reflexivity | discriminate].
Qed.

Example sleep_refused_lengths :
  sleep_refused 5 = None
  /\ sleep_refused 9223372036 = None
  /\ sleep_refused 9223372037
     = Some (OverflowError "timestamp too large to convert to C _PyTime_t")
  /\ sleep_refused (10 ^ 30)
     = Some (OverflowError "timestamp too large to convert to C _PyTime_t")
  /\ sleep_refused (-1) = Some (ValueError "sleep length must be non-negative")
  /\ sleep_refused (- 9223372036)
     = Some (ValueError "sleep length must be non-negative")
  /\ sleep_refused (- (10 ^ 30))
     = Some (OverflowError "timestamp too large to convert to C _PyTime_t").
Proof. repeat split. Qed.

Lemma count_attempts_app (a b : list event) :
  count_attempts (a ++ b) = (count_attempts a + count_attempts b)%nat.
Proof. unfold count_attempts. now rewrite List.filter_app, length_app. Qed.

(** The loop touches no file, only adds to the history, and makes no more
    attempts than the budget it has left. *)
Lemma attempt_loop_effect cfg u (n : nat) :
  forall attempts last_status st,
    (Z.to_nat (max_retries cfg - attempts) <= n)%nat ->
    exists new,
      files (attempt_loop ytdl cfg u attempts last_status st).2 = files st
      /\ trace (attempt_loop ytdl cfg u attempts last_status st).2 = trace st ++ new
      /\ (count_attempts new <= Z.to_nat (max_retries cfg - attempts))%nat.
Proof.
  induction n as [| n IH]; intros attempts last_status st Hn;
    rewrite attempt_loop_eq.
  - rewrite (proj2 (Z.ltb_ge _ _)) by lia.
    exists []. simpl. rewrite app_nil_r. repeat split. apply Nat.le_0_l.
  - destruct (Z.ltb_spec attempts (max_retries cfg)) as [Hlt | Hge].
    2:{ exists []. simpl. rewrite app_nil_r. repeat split. apply Nat.le_0_l. }
    destruct (ytdl cfg (trace st) u) as [[] | e].
    { exists [Attempt u]. simpl. repeat split. unfold count_attempts. simpl. lia. }
    destruct (on_exception e) as [ls | e'].
    2:{ exists [Attempt u]. simpl. repeat split. unfold count_attempts. simpl. lia. }
    assert (Hrec : forall st1,
      files st1 = files st ->
      (exists mid, trace st1 = trace st ++ Attempt u :: mid /\ count_attempts mid = 0%nat) ->
      exists new,
        files (attempt_loop ytdl cfg u (attempts + 1) ls st1).2 = files st
        /\ trace (attempt_loop ytdl cfg u (attempts + 1) ls st1).2 = trace st ++ new
        /\ (count_attempts new <= Z.to_nat (max_retries cfg - attempts))%nat).
    { intros st1 Hf [mid [Ht Hmid]].
      destruct (IH (attempts + 1) ls st1) as [new [Hf' [Ht' Hc]]]; [lia |].
      exists (Attempt u :: mid ++ new). rewrite Hf', Ht', Ht, Hf.
      repeat split.
      - now rewrite <- app_assoc.
      - change (Attempt u :: mid ++ new) with ([Attempt u] ++ mid ++ new).
        rewrite !count_attempts_app, Hmid. unfold count_attempts at 1. simpl. lia. }
    destruct (attempts + 1 <? max_retries cfg).
    + rewrite sleep_effect. destruct (sleep_refused (retry_delay_seconds cfg)).
      * exists [Attempt u]. simpl. repeat split. unfold count_attempts. simpl. lia.
      * apply Hrec; [reflexivity |]. exists [Sleep (retry_delay_seconds cfg)].
        simpl. now rewrite <- app_assoc.
    + apply Hrec; [reflexivity |]. now exists [].
Qed.

(** The loop answers SUCCESS only when an attempt went through. *)
Lemma attempt_loop_SUCCESS cfg u (n : nat) :
  forall attempts last_status st k st',
    (Z.to_nat (max_retries cfg - attempts) <= n)%nat ->
    last_status <> SUCCESS ->
    attempt_loop ytdl cfg u attempts last_status st = (Ok (SUCCESS, k), st') ->
    exists t, ytdl cfg t u = Ok tt.
Proof.
  induction n as [| n IH]; intros attempts last_status st k st' Hn Hls;
    rewrite attempt_loop_eq.
  - rewrite (proj2 (Z.ltb_ge _ _)) by lia. congruence.
  - destruct (Z.ltb_spec attempts (max_retries cfg)) as [Hlt | Hge]; [| congruence].
    destruct (ytdl cfg (trace st) u) as [[] | e] eqn:Hy; [eauto |].
    destruct (on_exception e) as [ls | e'] eqn:He; [| discriminate].
    apply on_exception_Ok in He as [-> _].
    destruct (if attempts + 1 <? max_retries cfg then _ else _) as [[[] | e'] st2];
      [| discriminate].
    apply IH; [lia | apply classify_error_not_SUCCESS].
Qed.

(** C9: with a retry budget that is not negative, a call of the retry loop
    ends having made at most [max_retries] attempts (and touched no file);
    with a budget of zero it returns (UNKNOWN_ERROR, 0) and the state is the
    one it started from: no attempt, no pause. *)
Theorem C9_attempts_bounded (cfg : Config) (u : string) (st : state) :
  0 <= max_retries cfg ->
  exists (r : result (StatusCode * Z)) (st' : state) (new : list event),
    download_single ytdl u cfg st = (r, st')
    /\ files st' = files st
    /\ trace st' = trace st ++ new
    /\ Z.of_nat (count_attempts new) <= max_retries cfg
    /\ (max_retries cfg = 0 -> r = Ok (UNKNOWN_ERROR, 0) /\ st' = st).
Proof.
  intros Hmax. unfold download_single.
  destruct (attempt_loop_effect cfg u (Z.to_nat (max_retries cfg)) 0 UNKNOWN_ERROR st)
    as [new [Hf [Ht Hc]]]; [lia |].
  destruct (attempt_loop ytdl cfg u 0 UNKNOWN_ERROR st) as [r st'] eqn:Hrun.
  exists r, st', new. simpl in Hf, Ht.
  split; [reflexivity |]. split; [assumption |]. split; [assumption |].
  split; [lia |].
  intros Hzero. rewrite attempt_loop_eq, Hzero in Hrun. simpl in Hrun.
  injection Hrun as <- <-. now split.
Qed.


(** ** The run: the loop over the queue and the two files written *)

Lemma append_failed_effect (cfg : Config) (failed_urls : list string) (st : state) :
  append_failed cfg failed_urls st =
  (Ok tt,
   match failed_urls with
   | [] => st
   | _ => {| files := <[failed_file cfg :=
                          Str.join (String Str.LF "") (failed_lines cfg st ++ failed_urls)
                          +:+ String Str.LF ""]> (files st);
             trace := trace st |}
   end).
Proof.
  destruct failed_urls as [| u rest]; [reflexivity |].
  unfold append_failed, failed_lines, mbind, M_bind, path_exists, read_text,
    write_text, mret, M_ret.
  destruct (files st !! failed_file cfg) as [text |] eqn:Hf; simpl.
  - now rewrite Hf.
  - reflexivity.
Qed.

(** The lines of the failure file after [append_failed] are the lines it
    had, then the URLs given. *)
Lemma failed_lines_append (cfg : Config) (failed_urls : list string) (st st' : state) :
  append_failed cfg failed_urls st = (Ok tt, st') ->
  Forall (fun u => no_linebreak u = true) failed_urls ->
  failed_lines cfg st' = failed_lines cfg st ++ failed_urls.
Proof.
  rewrite append_failed_effect. intros H Hall. injection H as <-.
  destruct failed_urls as [| u rest]; [now rewrite app_nil_r |].
  unfold failed_lines at 1. simpl. rewrite lookup_insert_eq.
  apply splitlines_join.
  - now destruct (failed_lines cfg st).
  - apply Forall_app. split; [| assumption].
    unfold failed_lines. destruct (files st !! failed_file cfg); [| constructor].
    apply splitlines_no_linebreak.
Qed.

Lemma download_single_files (cfg : Config) (u : string) (st : state) :
  files (download_single ytdl u cfg st).2 = files st.
Proof.
  unfold download_single.
  destruct (attempt_loop_effect cfg u (Z.to_nat (max_retries cfg - 0)) 0 UNKNOWN_ERROR st)
    as [new [Hf _]]; [lia | exact Hf].
Qed.

Lemma download_single_SUCCESS (cfg : Config) (u : string) (st st' : state) (k : Z) :
  download_single ytdl u cfg st = (Ok (SUCCESS, k), st') ->
  exists t, ytdl cfg t u = Ok tt.
Proof.
  unfold download_single. intros H.
  eapply (attempt_loop_SUCCESS cfg u _ 0 UNKNOWN_ERROR st k st'); eauto; discriminate.
Qed.

(** What the loop over the URLs leaves: one entry per URL, in order, after
    the entries it started with; the URLs of the entries that failed, in
    order, after the failed URLs it started with; and the files as they
    were. *)
Lemma for_urls_effect (cfg : Config) (now : string) (urls : list string) :
  forall (log_entries : list json) (failed_urls : list string) (st : state),
    match for_urls ytdl cfg now urls log_entries failed_urls st with
    | (Ok (log_entries', failed_urls'), st') =>
        exists entries : list LogEntry,
          log_entries' = log_entries ++ List.map asdict entries
          /\ failed_urls' = failed_urls ++ List.map url (List.filter entry_failed entries)
          /\ List.map url entries = urls
          /\ Forall entry_consistent entries
          /\ Forall (fun e => status_code e = SUCCESS ->
                              exists t, ytdl cfg t (url e) = Ok tt) entries
          /\ files st' = files st
    | (Raise _, st') => files st' = files st
    end.
Proof.
  induction urls as [| u rest IH]; intros log_entries failed_urls st.
  - simpl. exists []. simpl. rewrite !app_nil_r. repeat split; constructor.
  - cbn [for_urls]. unfold mbind, M_bind.
    pose proof (download_single_files cfg u st) as Hfiles.
    destruct (download_single ytdl u cfg st) as [[[sc attempts] | e] st1] eqn:Hd;
      simpl in Hfiles; [| exact Hfiles].
    match goal with
    | |- context [for_urls ytdl cfg now rest ?L ?F st1] =>
        specialize (IH L F st1); destruct (for_urls ytdl cfg now rest L F st1)
          as [[[log' failed'] | e] st2]
    end; [| congruence].
    destruct IH as [entries [-> [-> [Hurls [Hcons [Hsucc Hf]]]]]].
    destruct (decide (sc = SUCCESS)) as [-> | Hsc].
    + exists ({| url := u; status := "downloaded"; status_code := SUCCESS;
                 retries := Z.max 0 (attempts - 1); date_created := now |} :: entries).
      rewrite bool_decide_eq_true_2 by reflexivity. simpl.
      rewrite <- app_assoc, Hurls. repeat split; try congruence.
      * constructor; [left; now split | assumption].
      * constructor; [| assumption]. simpl. intros _.
        now apply download_single_SUCCESS in Hd.
    + exists ({| url := u; status := "failed"; status_code := sc;
                 retries := attempts; date_created := now |} :: entries).
      rewrite bool_decide_eq_false_2 by assumption. simpl.
      rewrite <- !app_assoc, Hurls. repeat split; try congruence.
      * constructor; [right; now split | assumption].
      * constructor; [| assumption]. simpl. congruence.
Qed.

Lemma entry_consistent_iff (e : LogEntry) :
  entry_consistent e -> (status e = "downloaded" <-> status_code e = SUCCESS).
Proof. intros [[Hs Hc] | [Hs Hc]]; rewrite Hs; split; congruence. Qed.

(** A run, end to end.  It ends in one of three ways: the queue is empty
    and nothing happens; the loop over the URLs raises and no file is
    written; or it ends normally, having written the failure file (the URLs
    of the entries that failed, after the lines it had) and then the log
    (the log it loaded, then one entry per queued URL). *)
Lemma process_queue_effect (utcnow : string) (cfg : Config) (st : state) :
  exists (r : result unit) (st' : state) (entries : list LogEntry),
    process_queue json_loads json_dumps ytdl utcnow cfg st = (r, st')
    /\ Forall entry_consistent entries
    /\ Forall (fun e => status_code e = SUCCESS ->
                        exists t, ytdl cfg t (url e) = Ok tt) entries
    /\ ((queued_urls cfg st = [] /\ r = Ok tt /\ st' = st /\ entries = [])
        \/ (queued_urls cfg st <> [] /\ (exists e, r = Raise e)
            /\ files st' = files st /\ entries = [])
        \/ (queued_urls cfg st <> [] /\ r = Ok tt
            /\ List.map url entries = queued_urls cfg st
            /\ files st' =
               <[log_file cfg :=
                   json_dumps (JList (stored_log json_loads (files st !! log_file cfg)
                                      ++ List.map asdict entries))]>
                 (files (append_failed cfg
                           (List.map url (List.filter entry_failed entries)) st).2))).
Proof.
  unfold process_queue, mbind at 1, M_bind at 1.
  rewrite load_queue_effect.
  destruct (queued_urls cfg st) as [| u rest] eqn:Hq.
  { exists (Ok tt), st, []. split; [reflexivity |].
    split; [constructor |]. split; [constructor |]. left. now repeat split. }
  unfold mbind at 1, M_bind at 1. rewrite load_log_effect.
  unfold mbind at 1, M_bind at 1.
  pose proof (for_urls_effect cfg (utcnow +:+ "Z") (u :: rest)
                (stored_log json_loads (files st !! log_file cfg)) [] st) as Hloop.
  destruct (for_urls _ _ _ _ _ _ _) as [[[log' failed'] | e] st1].
  2:{ exists (Raise e), st1, []. split; [reflexivity |].
      split; [constructor |]. split; [constructor |]. right. left.
      repeat split; [discriminate | now exists e | assumption]. }
  destruct Hloop as [entries [-> [-> [Hurls [Hcons [Hsucc Hf]]]]]].
  simpl app.
  eexists (Ok tt), _, entries.
  split.
  { unfold mbind, M_bind. rewrite append_failed_effect. reflexivity. }
  split; [assumption |]. split; [assumption |]. right. right.
  split; [discriminate |]. split; [reflexivity |]. split; [assumption |].
  rewrite append_failed_effect. simpl.
  unfold failed_lines. rewrite Hf.
  destruct (List.map url (List.filter entry_failed entries)); simpl; now rewrite ?Hf.
Qed.

(** A loop over the URLs that ends normally has had every call of the
    retry loop return, and so has a run. *)
Lemma for_urls_each_returns (cfg : Config) (now : string) (urls : list string) :
  forall (log_entries : list json) (failed_urls : list string) (st st' : state) r,
    for_urls ytdl cfg now urls log_entries failed_urls st = (Ok r, st') ->
    forall u, In u urls ->
      exists st_u r_u st_u', download_single ytdl u cfg st_u = (Ok r_u, st_u').
Proof.
  induction urls as [| v rest IH]; intros log_entries failed_urls st st' r Hrun u Hu.
  - destruct Hu.
  - simpl in Hrun. unfold mbind at 1, M_bind at 1 in Hrun.
    destruct (download_single ytdl v cfg st) as [[[sc k] | e] st1] eqn:Hv;
      [| discriminate].
    destruct Hu as [<- | Hu]; [now exists st, (sc, k), st1 |].
    eapply IH; eassumption.
Qed.

Lemma process_queue_each_returns (utcnow : string) (cfg : Config) (st st' : state)
    (u : string) :
  process_queue json_loads json_dumps ytdl utcnow cfg st = (Ok tt, st') ->
  In u (queued_urls cfg st) ->
  exists st_u r_u st_u', download_single ytdl u cfg st_u = (Ok r_u, st_u').
Proof.
  unfold process_queue, mbind at 1, M_bind at 1.
  rewrite load_queue_effect.
  destruct (queued_urls cfg st) as [| v rest] eqn:Hq; [intros _ [] |].
  unfold mbind at 1, M_bind at 1. rewrite load_log_effect.
  unfold mbind at 1, M_bind at 1.
  destruct (for_urls _ _ _ _ _ _ _) as [[r | e] st1] eqn:Hloop; [| discriminate].
  intros _ Hu. eapply for_urls_each_returns; eassumption.
Qed.

(** When the first attempt fails and the budget allows another, the retry
    loop returns only if [time.sleep] accepted the delay. *)
Lemma download_single_accepts (cfg : Config) (u : string) (st st' : state)
    (e : exn) (r : StatusCode * Z) :
  1 < max_retries cfg ->
  ytdl cfg (trace st) u = Raise e ->
  is_Exception e = true ->
  download_single ytdl u cfg st = (Ok r, st') ->
  sleep_refused (retry_delay_seconds cfg) = None.
Proof.
  intros Hmax Hy He. unfold download_single.
  rewrite attempt_loop_eq, (proj2 (Z.ltb_lt _ _)) by lia.
  rewrite Hy, (on_exception_Exception e He).
  rewrite (proj2 (Z.ltb_lt _ _)) by lia.
  rewrite sleep_effect.
  destruct (sleep_refused (retry_delay_seconds cfg)); [discriminate | reflexivity].
Qed.

Lemma queued_urls_no_linebreak (cfg : Config) (st : state) :
  Forall (fun u => no_linebreak u = true) (queued_urls cfg st).
Proof.
  unfold queued_urls. destruct (files st !! queue_file cfg); [| constructor].
  apply queue_spec_no_linebreak.
Qed.

Lemma failed_urls_no_linebreak (cfg : Config) (st : state) (entries : list LogEntry) :
  List.map url entries = queued_urls cfg st ->
  Forall (fun u => no_linebreak u = true)
    (List.map url (List.filter entry_failed entries)).
Proof.
  intros Hurls. pose proof (queued_urls_no_linebreak cfg st) as Hall.
  rewrite <- Hurls in Hall. rewrite List.Forall_forall in *.
  intros u Hu. apply Hall.
  apply List.in_map_iff in Hu as [e [<- He]].
  apply List.filter_In in He as [He _]. now apply List.in_map.
Qed.

(** What the two writes of a run leave in the files. *)
Lemma written_files (cfg : Config) (failed_urls : list string) (doc : string)
    (st st' : state) :
  files st' = <[log_file cfg := doc]> (files (append_failed cfg failed_urls st).2) ->
  files st' !! log_file cfg = Some doc
  /\ (failed_file cfg <> log_file cfg ->
      Forall (fun u => no_linebreak u = true) failed_urls ->
      failed_lines cfg st' = failed_lines cfg st ++ failed_urls)
  /\ (forall p, p <> log_file cfg -> p <> failed_file cfg ->
        files st' !! p = files st !! p).
Proof.
  intros Hfiles. split; [rewrite Hfiles; apply lookup_insert_eq |]. split.
  - intros Hne Hall.
    rewrite <- (failed_lines_append cfg failed_urls st
                  (append_failed cfg failed_urls st).2); [| | assumption].
    + unfold failed_lines. rewrite Hfiles. now rewrite lookup_insert_ne.
    + now rewrite append_failed_effect.
  - intros p Hlog Hfailed. rewrite Hfiles, lookup_insert_ne by congruence.
    rewrite append_failed_effect. simpl.
    destruct failed_urls; [reflexivity |]. simpl. now rewrite lookup_insert_ne.
Qed.

(** A URL on which no attempt ever goes through is among the failed. *)
Lemma never_downloads_failed (cfg : Config) (u : string) (entries : list LogEntry) :
  Forall entry_consistent entries ->
  Forall (fun e => status_code e = SUCCESS ->
                   exists t, ytdl cfg t (url e) = Ok tt) entries ->
  (forall t, ytdl cfg t u <> Ok tt) ->
  In u (List.map url entries) ->
  In u (List.map url (List.filter entry_failed entries)).
Proof.
  intros Hcons Hsucc Hnever Hu.
  apply List.in_map_iff in Hu as [e [<- He]].
  apply List.in_map. apply List.filter_In. split; [assumption |].
  rewrite List.Forall_forall in Hcons, Hsucc.
  destruct (Hcons e He) as [[_ Hsc] | [Hst _]].
  - destruct (Hsucc e He Hsc) as [t Ht]. now apply Hnever in Ht.
  - unfold entry_failed. now rewrite Hst.
Qed.

(** C10: in a run that keeps the failure file and the log apart, the lines
    added to the failure file are the URLs of the entries the run recorded
    with the status [failed], in the order of the entries (those entries are
    the ones written to the log after the log loaded, one per queued URL; a
    run that writes no log adds no line); and an entry recorded says
    [downloaded] exactly when its code is SUCCESS, [failed] otherwise. *)
Theorem C10_failure_file_follows_log (utcnow : string) (cfg : Config) (st : state) :
  failed_file cfg <> log_file cfg ->
  exists (r : result unit) (st' : state) (entries : list LogEntry),
    process_queue json_loads json_dumps ytdl utcnow cfg st = (r, st')
    /\ failed_lines cfg st' =
       failed_lines cfg st ++ List.map url (List.filter entry_failed entries)
    /\ ((entries = [] /\ files st' = files st)
        \/ (r = Ok tt
            /\ List.map url entries = queued_urls cfg st
            /\ files st' !! log_file cfg =
               Some (json_dumps (JList (stored_log json_loads (files st !! log_file cfg)
                                        ++ List.map asdict entries)))))
    /\ Forall (fun e => status e = "downloaded" <-> status_code e = SUCCESS) entries
    /\ Forall (fun e => status e = "downloaded" \/ status e = "failed") entries.
Proof.
  intros Hne.
  destruct (process_queue_effect utcnow cfg st)
    as [r [st' [entries [Hrun [Hcons [_ Hcase]]]]]].
  exists r, st', entries. split; [assumption |].
  assert (Hstatus : Forall (fun e => status e = "downloaded" <-> status_code e = SUCCESS) entries
                    /\ Forall (fun e => status e = "downloaded" \/ status e = "failed") entries).
  { split; eapply Forall_impl; try exact Hcons; simpl.
    - apply entry_consistent_iff.
    - intros e [[H _] | [H _]]; auto. }
  destruct Hcase as [[_ [_ [-> ->]]] | [[_ [_ [Hf ->]]] | [_ [-> [Hurls Hf]]]]].
  - split; [simpl; now rewrite app_nil_r |]. split; [now left | assumption].
  - split; [| split; [now left | assumption]].
    unfold failed_lines. rewrite Hf. simpl. now rewrite app_nil_r.
  - apply written_files in Hf as [Hlog [Hfailed _]].
    split; [| split; [right; now repeat split | assumption]].
    apply Hfailed; [assumption |]. now apply (failed_urls_no_linebreak cfg st).
Qed.

(** C4: with [max_retries = 3] (and a delay that is not negative; that
    [time.sleep] accepted it follows from the run having ended normally), on a
    URL whose every attempt raises an exception that the classifier reads as
    a rate limit, the retry loop returns (RATE_LIMIT, 3), and what it adds
    to the history is three attempts with a pause after the first and after
    the second: two pauses; and when the URL is in the queue, after a run
    that ends normally it is a line of the failure file. *)
Theorem C4_rate_limited_url (utcnow : string) (cfg : Config) (u : string)
    (st st' : state) :
  max_retries cfg = 3 ->
  0 <= retry_delay_seconds cfg ->
  failed_file cfg <> log_file cfg ->
  (forall t, exists e,
      ytdl cfg t u = Raise e /\ is_Exception e = true /\ classify_error e = RATE_LIMIT) ->
  In u (queued_urls cfg st) ->
  process_queue json_loads json_dumps ytdl utcnow cfg st = (Ok tt, st') ->
  let d := retry_delay_seconds cfg in
  download_single ytdl u cfg st =
    (Ok (RATE_LIMIT, 3),
     {| files := files st;
        trace := trace st ++ [Attempt u; Sleep d; Attempt u; Sleep d; Attempt u] |})
  /\ count_sleeps [Attempt u; Sleep d; Attempt u; Sleep d; Attempt u] = 2%nat
  /\ In u (failed_lines cfg st').
Proof.
  intros Hmax Hdelay Hne Hfail Hu Hrun d.
  assert (Haccept : sleep_refused d = None).
  { destruct (process_queue_each_returns utcnow cfg st st' u Hrun Hu)
      as [st_u [r_u [st_u' Hd]]].
    destruct (Hfail (trace st_u)) as [e [Hy [He _]]].
    apply (download_single_accepts cfg u st_u st_u' e r_u); try assumption. lia. }
  split; [| split; [reflexivity |]].
  - unfold download_single.
    assert (Hstep : forall attempts last_status st0,
              attempts < 3 ->
              attempt_loop ytdl cfg u attempts last_status st0 =
              match (if attempts + 1 <? 3
                     then sleep d {| files := files st0; trace := trace st0 ++ [Attempt u] |}
                     else (Ok tt, {| files := files st0; trace := trace st0 ++ [Attempt u] |}))
              with
              | (Ok _, st2) => attempt_loop ytdl cfg u (attempts + 1) RATE_LIMIT st2
              | (Raise e', st2) => (Raise e', st2)
              end).
    { intros attempts last_status st0 Hlt.
      rewrite attempt_loop_eq, Hmax, (proj2 (Z.ltb_lt _ _) Hlt).
      destruct (Hfail (trace st0)) as [e [-> [He Hc]]].
      now rewrite (on_exception_Exception e He), Hc. }
    rewrite Hstep by lia. simpl.
    rewrite sleep_effect, Haccept. simpl.
    rewrite Hstep by lia. simpl.
    rewrite sleep_effect, Haccept. simpl.
    rewrite Hstep by lia. simpl.
    rewrite attempt_loop_eq, Hmax. simpl.
    now rewrite <- !app_assoc.
  - destruct (process_queue_effect utcnow cfg st)
      as [r [st1 [entries [Hrun' [Hcons [Hsucc Hcase]]]]]].
    rewrite Hrun in Hrun'. injection Hrun' as <- <-.
    destruct Hcase as [[Hq _] | [[_ [[e He] _]] | [_ [_ [Hurls Hf]]]]].
    + rewrite Hq in Hu. destruct Hu.
    + discriminate.
    + apply written_files in Hf as [_ [Hfailed _]].
      rewrite Hfailed;
        [| assumption | now apply (failed_urls_no_linebreak cfg st)].
      apply List.in_or_app. right.
      apply (never_downloads_failed cfg); try assumption.
      * intros t Ht. destruct (Hfail t) as [e [He _]]. congruence.
      * now rewrite Hurls.
Qed.

(** C6: two runs over a queue that holds a URL on which no attempt ever goes
    through, both ending normally, with the three files apart and a [json]
    that reads back what it writes.  Each run adds lines to the failure file
    after the lines it had, and the URL is among the lines each run adds:
    after the second run the file holds it twice more than at the start.
    The log after the first run is the log loaded at its start followed by
    the first run's entries; after the second run it is that log followed by
    the second run's entries. *)
Theorem C6_two_runs_append (utcnow1 utcnow2 : string) (cfg : Config) (u : string)
    (st st1 st2 : state) :
  queue_file cfg <> failed_file cfg ->
  queue_file cfg <> log_file cfg ->
  failed_file cfg <> log_file cfg ->
  (forall v, json_loads (json_dumps v) = Some v) ->
  In u (queued_urls cfg st) ->
  (forall t, ytdl cfg t u <> Ok tt) ->
  process_queue json_loads json_dumps ytdl utcnow1 cfg st = (Ok tt, st1) ->
  process_queue json_loads json_dumps ytdl utcnow2 cfg st1 = (Ok tt, st2) ->
  exists (entries1 entries2 : list LogEntry),
    let log0 := stored_log json_loads (files st !! log_file cfg) in
    let failed1 := List.map url (List.filter entry_failed entries1) in
    let failed2 := List.map url (List.filter entry_failed entries2) in
    failed_lines cfg st1 = failed_lines cfg st ++ failed1
    /\ failed_lines cfg st2 = (failed_lines cfg st ++ failed1) ++ failed2
    /\ In u failed1 /\ In u failed2
    /\ files st1 !! log_file cfg = Some (json_dumps (JList (log0 ++ List.map asdict entries1)))
    /\ files st2 !! log_file cfg =
       Some (json_dumps (JList ((log0 ++ List.map asdict entries1) ++ List.map asdict entries2)))
    /\ List.map url entries1 = queued_urls cfg st
    /\ List.map url entries2 = queued_urls cfg st.
Proof.
  intros Hqf Hql Hfl Hjson Hu Hnever Hrun1 Hrun2.
  destruct (process_queue_effect utcnow1 cfg st)
    as [r1 [st1' [entries1 [Hrun1' [Hcons1 [Hsucc1 Hcase1]]]]]].
  rewrite Hrun1 in Hrun1'. injection Hrun1' as <- <-.
  destruct Hcase1 as [[Hq _] | [[_ [[e He] _]] | [_ [_ [Hurls1 Hf1]]]]];
    [rewrite Hq in Hu; destruct Hu | discriminate |].
  apply written_files in Hf1 as [Hlog1 [Hfailed1 Hother1]].
  assert (Hqueue : queued_urls cfg st1 = queued_urls cfg st).
  { unfold queued_urls. now rewrite Hother1. }
  destruct (process_queue_effect utcnow2 cfg st1)
    as [r2 [st2' [entries2 [Hrun2' [Hcons2 [Hsucc2 Hcase2]]]]]].
  rewrite Hrun2 in Hrun2'. injection Hrun2' as <- <-.
  rewrite Hqueue in Hcase2.
  destruct Hcase2 as [[Hq _] | [[_ [[e He] _]] | [_ [_ [Hurls2 Hf2]]]]];
    [rewrite Hq in Hu; destruct Hu | discriminate |].
  apply written_files in Hf2 as [Hlog2 [Hfailed2 _]].
  rewrite Hlog1 in Hlog2. simpl in Hlog2. rewrite Hjson in Hlog2.
  exists entries1, entries2. simpl.
  rewrite Hfailed2, Hfailed1; try assumption;
    try (apply (failed_urls_no_linebreak cfg st); assumption).
  repeat split; try assumption.
  - apply (never_downloads_failed cfg); try assumption. now rewrite Hurls1.
  - apply (never_downloads_failed cfg); try assumption. now rewrite Hurls2.
Qed.

(** What the loop records for a URL that downloads: the count the retry
    loop returned, less one, and never below zero. *)
Lemma recorded_retries_on_success (cfg : Config) (now u : string)
    (log_entries : list json) (failed_urls : list string) (st st1 : state) (k : Z) :
  download_single ytdl u cfg st = (Ok (SUCCESS, k), st1) ->
  for_urls ytdl cfg now [u] log_entries failed_urls st =
  (Ok (log_entries ++ [asdict {| url := u; status := "downloaded";
                                 status_code := SUCCESS;
                                 retries := Z.max 0 (k - 1);
                                 date_created := now |}],
       failed_urls), st1).
Proof.
  intros Hd. cbn [for_urls]. unfold mbind, M_bind. now rewrite Hd.
Qed.

End Facts.

(** ** The codec of the scenarios reads back what it writes *)

Lemma tree_to_json_to_tree (v : json) : tree_to_json (json_to_tree v) = v.
Proof.
  induction v as [| b | n | s | items IH | fields IH] using json_induction;
    try reflexivity.
  - simpl. f_equal. induction IH as [| x l Hx _ IHl]; [reflexivity |].
    simpl. now rewrite Hx, IHl.
  - simpl. f_equal. induction IH as [| [k x] l Hx _ IHl]; [reflexivity |].
    simpl in *. now rewrite Hx, IHl.
Qed.

Lemma pos_of_bits_of_pos (p : positive) : pos_of_bits (bits_of_pos p) = Some p.
Proof. induction p as [q IH | q IH |]; simpl; [now rewrite IH .. | reflexivity]. Qed.

Lemma bit_loads_dumps (v : json) : bit_loads (bit_dumps v) = Some v.
Proof.
  unfold bit_loads, bit_dumps.
  now rewrite pos_of_bits_of_pos, decode_encode, tree_to_json_to_tree.
Qed.

(** ** The retries a log entry records *)

(** C1 fails on the code.  On a queue of one URL whose first attempt fails
    and whose second goes through, the retry loop returns (SUCCESS, 1): one
    attempt failed before the success.  The entry the run writes to the log
    says [retries = 0]: [process_queue] takes one more off the count that
    [download_single] has already reduced by one. *)
Theorem C1_retries_decremented_twice (json_loads : string -> option json)
    (json_dumps : json -> string) (utcnow : string) :
  download_single flaky_once sample_url Config_default one_url_queue =
    (Ok (SUCCESS, 1),
     {| files := files one_url_queue;
        trace := [Attempt sample_url; Sleep 5; Attempt sample_url] |})
  /\ process_queue json_loads json_dumps flaky_once utcnow Config_default one_url_queue =
     (Ok tt,
      {| files :=
           <["log.json" :=
               json_dumps
                 (JList [asdict {| url := sample_url; status := "downloaded";
                                   status_code := SUCCESS; retries := 0;
                                   date_created := utcnow +:+ "Z" |}])]>
             (files one_url_queue);
         trace := [Attempt sample_url; Sleep 5; Attempt sample_url] |}).
Proof.
  split; vm_compute; reflexivity.
Qed.

(** ** The theorems at work on the scenarios *)


(** C4 on the default configuration and a library that always answers 429. *)
Lemma C4_witness :
  download_single rate_limited sample_url Config_default one_url_queue =
    (Ok (RATE_LIMIT, 3),
     {| files := files one_url_queue;
        trace := trace one_url_queue
                 ++ [Attempt sample_url; Sleep 5; Attempt sample_url; Sleep 5;
                     Attempt sample_url] |})
  /\ count_sleeps [Attempt sample_url; Sleep 5; Attempt sample_url; Sleep 5;
                   Attempt sample_url] = 2%nat
  /\ In sample_url
       (failed_lines Config_default
          (state_after rate_limited "2024-05-01T10:00:00" one_url_queue)).
Proof.
  apply (C4_rate_limited_url bit_loads bit_dumps rate_limited "2024-05-01T10:00:00"
           Config_default sample_url one_url_queue
           (state_after rate_limited "2024-05-01T10:00:00" one_url_queue)).
  - reflexivity.
  - simpl. lia.
  - simpl. discriminate.
  - intros t. exists (DownloadError "HTTP Error 429: Too Many Requests").
    repeat split; reflexivity.
  - vm_compute. left. reflexivity.
  - vm_compute. reflexivity.
Defined.

(** C6 on two runs of the default configuration over the queue of one URL,
    with a library on which nothing is ever found. *)
Lemma C6_witness :
  exists (entries1 entries2 : list LogEntry),
    let st1 := state_after never_found "2024-05-01T10:00:00" one_url_queue in
    let st2 := state_after never_found "2024-05-02T10:00:00" st1 in
    let log0 := stored_log bit_loads (files one_url_queue !! log_file Config_default) in
    let failed1 := List.map url (List.filter entry_failed entries1) in
    let failed2 := List.map url (List.filter entry_failed entries2) in
    failed_lines Config_default st1 = failed_lines Config_default one_url_queue ++ failed1
    /\ failed_lines Config_default st2 =
       (failed_lines Config_default one_url_queue ++ failed1) ++ failed2
    /\ In sample_url failed1 /\ In sample_url failed2
    /\ files st1 !! log_file Config_default =
       Some (bit_dumps (JList (log0 ++ List.map asdict entries1)))
    /\ files st2 !! log_file Config_default =
       Some (bit_dumps (JList ((log0 ++ List.map asdict entries1)
                               ++ List.map asdict entries2)))
    /\ List.map url entries1 = queued_urls Config_default one_url_queue
    /\ List.map url entries2 = queued_urls Config_default one_url_queue.
Proof.
  apply (C6_two_runs_append bit_loads bit_dumps never_found
           "2024-05-01T10:00:00" "2024-05-02T10:00:00" Config_default sample_url
           one_url_queue
           (state_after never_found "2024-05-01T10:00:00" one_url_queue)
           (state_after never_found "2024-05-02T10:00:00"
              (state_after never_found "2024-05-01T10:00:00" one_url_queue))).
  - simpl. discriminate.
  - simpl. discriminate.
  - simpl. discriminate.
  - exact bit_loads_dumps.
  - vm_compute. left. reflexivity.
  - intros t. discriminate.
  - vm_compute. reflexivity.
  - vm_compute. reflexivity.
Defined.

(** C9 on a configuration without any retry budget. *)
Lemma C9_witness :
  exists (r : result (StatusCode * Z)) (st' : state) (new : list event),
    download_single flaky_once sample_url Config_no_retry one_url_queue = (r, st')
    /\ files st' = files one_url_queue
    /\ trace st' = trace one_url_queue ++ new
    /\ Z.of_nat (count_attempts new) <= max_retries Config_no_retry
    /\ (max_retries Config_no_retry = 0 ->
        r = Ok (UNKNOWN_ERROR, 0) /\ st' = one_url_queue).
Proof.
  apply (C9_attempts_bounded flaky_once Config_no_retry sample_url one_url_queue).
  simpl. lia.
Defined.

(** C10 on a run of the default configuration that records a failure. *)
Lemma C10_witness :
  exists (r : result unit) (st' : state) (entries : list LogEntry),
    process_queue bit_loads bit_dumps rate_limited "2024-05-01T10:00:00"
      Config_default one_url_queue = (r, st')
    /\ failed_lines Config_default st' =
       failed_lines Config_default one_url_queue
       ++ List.map url (List.filter entry_failed entries)
    /\ ((entries = [] /\ files st' = files one_url_queue)
        \/ (r = Ok tt
            /\ List.map url entries = queued_urls Config_default one_url_queue
            /\ files st' !! log_file Config_default =
               Some (bit_dumps
                       (JList (stored_log bit_loads
                                 (files one_url_queue !! log_file Config_default)
                               ++ List.map asdict entries)))))
    /\ Forall (fun e => status e = "downloaded" <-> status_code e = SUCCESS) entries
    /\ Forall (fun e => status e = "downloaded" \/ status e = "failed") entries.
Proof.
  apply (C10_failure_file_follows_log bit_loads bit_dumps rate_limited
           "2024-05-01T10:00:00" Config_default one_url_queue).
  simpl. discriminate.
Defined.

(** * More of the code: the retry loop, the run, the files, the patterns *)

Section MoreFacts.

Variable json_loads : string -> option json.
Variable json_dumps : json -> string.
Variable ytdl : Config -> list event -> string -> result unit.

(** ** The retry loop, in full *)

Lemma on_exception_Raise (e e' : exn) :
  on_exception e = Raise e' -> e' = e /\ is_Exception e = false.
Proof. destruct e; simpl; intros H; inversion H; auto. Qed.

Lemma attempt_loop_post cfg u (n : nat) :
  forall attempts last_status st,
    (Z.to_nat (max_retries cfg - attempts) <= n)%nat ->
    loop_post ytdl cfg u attempts last_status st
      (attempt_loop ytdl cfg u attempts last_status st).1
      (attempt_loop ytdl cfg u attempts last_status st).2.
Proof.
  induction n as [| n IH]; intros attempts last_status st Hn;
    rewrite attempt_loop_eq; unfold loop_post.
  - rewrite (proj2 (Z.ltb_ge _ _)) by lia. simpl.
    split; [reflexivity |]. right. left. repeat split. lia.
  - destruct (Z.ltb_spec attempts (max_retries cfg)) as [Hlt | Hge].
    2:{ simpl. split; [reflexivity |]. right. left. repeat split. lia. }
    destruct (ytdl cfg (trace st) u) as [[] | e] eqn:Hy.
    { simpl. split; [reflexivity |]. left. exists 0%nat. simpl.
      rewrite app_nil_r. repeat split; try lia. assumption. }
    destruct (on_exception e) as [ls | e'] eqn:He.
    2:{ apply on_exception_Raise in He as [-> He]. simpl.
        split; [reflexivity |]. left. exists 0%nat. simpl.
        rewrite app_nil_r. repeat split; try lia; assumption. }
    apply on_exception_Ok in He as [-> He].
    destruct (Z.ltb_spec (attempts + 1) (max_retries cfg)) as [Hlt' | Hge'].
    + rewrite sleep_effect.
      destruct (sleep_refused (retry_delay_seconds cfg)) as [err |] eqn:Hd.
      { simpl. split; [reflexivity |]. right. repeat split; try lia. }
      specialize (IH (attempts + 1) (classify_error e)
                    {| files := files st;
                       trace := (trace st ++ [Attempt u])
                                ++ [Sleep (retry_delay_seconds cfg)] |}).
      unfold loop_post in IH.
      destruct IH as [Hf IH]; [lia |].
      destruct (attempt_loop ytdl cfg u (attempts + 1) _ _) as [[[sc k] | e1] st2].
      * simpl in *. split; [assumption |].
        destruct IH as [[j [-> [-> [Hk [Ht Hlast]]]]]
                       | [[Hmax _] | [_ [-> [e1 [-> [He1 [Ht Hlast]]]]]]]].
        -- left. exists (S j). simpl. rewrite <- !app_assoc in Ht, Hlast.
           repeat split; try lia; assumption.
        -- lia.
        -- right. right. split; [lia |]. split; [reflexivity |].
           exists e1.
           replace (Z.to_nat (max_retries cfg - attempts - 1))
             with (S (Z.to_nat (max_retries cfg - (attempts + 1) - 1))) by lia.
           simpl. rewrite <- !app_assoc in Ht, Hlast. repeat split; assumption.
      * simpl in *. split; [assumption |].
        destruct IH as [[j [He1 [Hk [Ht Hlast]]]] | [Hneg _]]; [| congruence].
        left. exists (S j). simpl. rewrite <- !app_assoc in Ht, Hlast.
        repeat split; try lia; assumption.
    + rewrite attempt_loop_eq, (proj2 (Z.ltb_ge _ _)) by lia. simpl.
      split; [reflexivity |]. right. right. split; [lia |]. split; [lia |].
      exists e. replace (Z.to_nat (max_retries cfg - attempts - 1)) with 0%nat by lia.
      simpl. rewrite app_nil_r. repeat split; assumption.
Qed.

Lemma download_single_post (cfg : Config) (u : string) (st st' : state)
    (r : result (StatusCode * Z)) :
  download_single ytdl u cfg st = (r, st') ->
  loop_post ytdl cfg u 0 UNKNOWN_ERROR st r st'.
Proof.
  unfold download_single. intros H.
  pose proof (attempt_loop_post cfg u (Z.to_nat (max_retries cfg - 0))
                0 UNKNOWN_ERROR st (Nat.le_refl _)) as Hpost.
  now rewrite H in Hpost.
Qed.

(** X1: when the retry loop returns SUCCESS, the count it returns is the
    number of attempts that failed before: it is below [max_retries], the
    loop touched no file, and what it added to the history is that many
    failed attempts, each followed by a pause, then the attempt that went
    through. *)
Theorem X1_success_counts_failures (cfg : Config) (u : string) (st st' : state) (k : Z) :
  download_single ytdl u cfg st = (Ok (SUCCESS, k), st') ->
  exists j : nat,
    k = Z.of_nat j /\ k < max_retries cfg
    /\ files st' = files st
    /\ trace st' = trace st ++ rounds u (retry_delay_seconds cfg) j ++ [Attempt u]
    /\ ytdl cfg (trace st ++ rounds u (retry_delay_seconds cfg) j) u = Ok tt.
Proof.
  intros H. apply download_single_post in H as [Hf H].
  destruct H as [[j [_ [Hk [Hlt [Ht Hlast]]]]]
                | [[_ [Hsc _]] | [_ [_ [e [Hsc _]]]]]].
  - exists j. repeat split; try lia; assumption.
  - discriminate.
  - symmetry in Hsc. now apply classify_error_not_SUCCESS in Hsc.
Qed.

(** X2: when the retry loop returns a failure code under a positive budget,
    it made exactly [max_retries] attempts, all on this URL, with a pause
    between two attempts and none after the last; the count returned is
    [max_retries], and the code is the classification of what the last
    attempt raised. *)
Theorem X2_exhausted_after_budget (cfg : Config) (u : string) (st st' : state)
    (sc : StatusCode) (k : Z) :
  0 < max_retries cfg ->
  sc <> SUCCESS ->
  download_single ytdl u cfg st = (Ok (sc, k), st') ->
  let before_last :=
    trace st ++ rounds u (retry_delay_seconds cfg) (Z.to_nat (max_retries cfg - 1)) in
  k = max_retries cfg
  /\ files st' = files st
  /\ trace st' = before_last ++ [Attempt u]
  /\ exists e, ytdl cfg before_last u = Raise e
                /\ is_Exception e = true /\ sc = classify_error e.
Proof.
  intros Hmax Hsc H. apply download_single_post in H as [Hf H].
  destruct H as [[j [Hs _]] | [[Hle _] | [_ [Hk [e [He [Hex [Ht Hlast]]]]]]]];
    [congruence | lia |].
  rewrite Z.sub_0_r in Ht, Hlast. simpl.
  rewrite app_assoc in Ht.
  split; [assumption |]. split; [assumption |]. split; [assumption |].
  exists e. repeat split; assumption.
Qed.


(** Under a delay that [time.sleep] refuses the first retry never happens:
    with room for a second attempt, a first attempt that fails is followed
    by the exception of [time.sleep], which leaves the loop. *)
Lemma download_single_refused_delay (cfg : Config) (u : string) (st : state)
    (e err : exn) :
  sleep_refused (retry_delay_seconds cfg) = Some err ->
  1 < max_retries cfg ->
  ytdl cfg (trace st) u = Raise e ->
  is_Exception e = true ->
  download_single ytdl u cfg st =
  (Raise err, {| files := files st; trace := trace st ++ [Attempt u] |}).
Proof.
  intros Hd Hmax Hy He. unfold download_single.
  rewrite attempt_loop_eq, (proj2 (Z.ltb_lt _ _)) by lia.
  rewrite Hy, (on_exception_Exception e He), (proj2 (Z.ltb_lt _ _)) by lia.
  rewrite sleep_effect, Hd. reflexivity.
Qed.

(** ** The run, in full *)

Lemma for_urls_recorded (cfg : Config) (now : string) (urls : list string) :
  forall (log_entries : list json) (failed_urls : list string) (st : state),
    match for_urls ytdl cfg now urls log_entries failed_urls st with
    | (Ok (log_entries', failed_urls'), st') =>
        exists entries : list LogEntry,
          log_entries' = log_entries ++ List.map asdict entries
          /\ failed_urls' = failed_urls ++ List.map url (List.filter entry_failed entries)
          /\ List.map url entries = urls
          /\ Forall (entry_recorded cfg now) entries
          /\ files st' = files st
    | (Raise e, st') =>
        files st' = files st
        /\ (is_Exception e = false \/ sleep_refused (retry_delay_seconds cfg) = Some e)
    end.
Proof.
  induction urls as [| u rest IH]; intros log_entries failed_urls st.
  - simpl. exists []. simpl. rewrite !app_nil_r. repeat split; constructor.
  - cbn [for_urls]. unfold mbind, M_bind.
    destruct (download_single ytdl u cfg st) as [[[sc attempts] | e] st1] eqn:Hd;
      apply download_single_post in Hd as [Hfiles Hpost].
    2:{ split; [assumption |]. simpl in Hpost.
        destruct Hpost as [[j [He _]] | [Hneg _]]; [now left | now right]. }
    match goal with
    | |- context [for_urls ytdl cfg now rest ?L ?F st1] =>
        specialize (IH L F st1); destruct (for_urls ytdl cfg now rest L F st1)
          as [[[log' failed'] | e] st2]
    end.
    2:{ destruct IH as [Hf He]. split; [congruence | assumption]. }
    destruct IH as [entries [-> [-> [Hurls [Hrec Hf]]]]].
    destruct (decide (sc = SUCCESS)) as [-> | Hsc].
    + exists ({| url := u; status := "downloaded"; status_code := SUCCESS;
                 retries := Z.max 0 (attempts - 1); date_created := now |} :: entries).
      rewrite bool_decide_eq_true_2 by reflexivity. simpl.
      rewrite <- app_assoc, Hurls. repeat split; try congruence.
      constructor; [| assumption]. split; [reflexivity |]. left. simpl.
      repeat split; try lia.
      destruct Hpost as [[j [_ [Hk [Hlt _]]]] | [[_ [Hbad _]] | [_ [_ [e [Hbad _]]]]]].
      * lia.
      * discriminate.
      * symmetry in Hbad. now apply classify_error_not_SUCCESS in Hbad.
    + exists ({| url := u; status := "failed"; status_code := sc;
                 retries := attempts; date_created := now |} :: entries).
      rewrite bool_decide_eq_false_2 by assumption. simpl.
      rewrite <- !app_assoc, Hurls. repeat split; try congruence.
      constructor; [| assumption]. split; [reflexivity |]. right. simpl.
      repeat split; try assumption.
      destruct Hpost as [[j [Hbad _]] | [[Hle [_ [-> _]]] | [Hlt [-> _]]]];
        [congruence | lia | lia].
Qed.

Lemma process_queue_recorded (utcnow : string) (cfg : Config) (st st' : state)
    (r : result unit) :
  process_queue json_loads json_dumps ytdl utcnow cfg st = (r, st') ->
  match r with
  | Ok _ =>
      (queued_urls cfg st = [] /\ st' = st)
      \/ (queued_urls cfg st <> []
          /\ exists entries : list LogEntry,
              List.map url entries = queued_urls cfg st
              /\ Forall (entry_recorded cfg (utcnow +:+ "Z")) entries
              /\ files st' =
                 <[log_file cfg :=
                     json_dumps (JList (stored_log json_loads (files st !! log_file cfg)
                                        ++ List.map asdict entries))]>
                   (files (append_failed cfg
                             (List.map url (List.filter entry_failed entries)) st).2)
              /\ trace st' = trace (for_urls ytdl cfg (utcnow +:+ "Z") (queued_urls cfg st)
                                      (stored_log json_loads (files st !! log_file cfg))
                                      [] st).2)
  | Raise e =>
      queued_urls cfg st <> []
      /\ files st' = files st
      /\ (is_Exception e = false \/ sleep_refused (retry_delay_seconds cfg) = Some e)
  end.
Proof.
  unfold process_queue, mbind at 1, M_bind at 1.
  rewrite load_queue_effect.
  destruct (queued_urls cfg st) as [| u rest] eqn:Hq.
  { intros H. injection H as <- <-. now left. }
  unfold mbind at 1, M_bind at 1. rewrite load_log_effect.
  unfold mbind at 1, M_bind at 1.
  pose proof (for_urls_recorded cfg (utcnow +:+ "Z") (u :: rest)
                (stored_log json_loads (files st !! log_file cfg)) [] st) as Hloop.
  destruct (for_urls _ _ _ _ _ _ _) as [[[log' failed'] | e] st1].
  2:{ intros H. injection H as <- <-. destruct Hloop as [Hf He].
      split; [discriminate | now split]. }
  destruct Hloop as [entries [-> [-> [Hurls [Hrec Hf]]]]].
  simpl app. unfold mbind, M_bind. rewrite append_failed_effect.
  intros H. injection H as <- <-. right. split; [discriminate |].
  exists entries. split; [assumption |]. split; [assumption |].
  rewrite append_failed_effect. simpl. unfold failed_lines. rewrite Hf.
  destruct (List.map url (List.filter entry_failed entries)); simpl;
    rewrite ?Hf; now split.
Qed.

(** X5: a run that ends normally on a queue that is not empty leaves in the
    log the entries it loaded followed by one entry per queued URL, in the
    order of the queue; each of these entries carries the time of the run
    followed by "Z"; a downloaded entry has a count of retries from 0 up to
    [max_retries] excluded, and a failed one has the count max(0,
    [max_retries]): the attempts made, not the retries. *)
Theorem X5_entries_of_a_run (utcnow : string) (cfg : Config) (st st' : state) :
  queued_urls cfg st <> [] ->
  process_queue json_loads json_dumps ytdl utcnow cfg st = (Ok tt, st') ->
  exists entries : list LogEntry,
    List.map url entries = queued_urls cfg st
    /\ files st' !! log_file cfg =
       Some (json_dumps (JList (stored_log json_loads (files st !! log_file cfg)
                                ++ List.map asdict entries)))
    /\ Forall (fun e => date_created e = utcnow +:+ "Z") entries
    /\ Forall (fun e => status e = "downloaded" -> 0 <= retries e < max_retries cfg) entries
    /\ Forall (fun e => status e = "failed" -> retries e = Z.max 0 (max_retries cfg)) entries.
Proof.
  intros Hq H. apply process_queue_recorded in H.
  destruct H as [[Hempty _] | [_ [entries [Hurls [Hrec [Hf _]]]]]]; [contradiction |].
  exists entries. split; [assumption |].
  split; [rewrite Hf; apply lookup_insert_eq |].
  repeat split; eapply Forall_impl; try exact Hrec; simpl.
  - now intros e [Hdate _].
  - intros e [_ [[_ [_ Hr]] | [Hst _]]] Hs; [assumption | congruence].
  - intros e [_ [[Hst _] | [_ [_ Hr]]]] Hs; [congruence | assumption].
Qed.

(** X6: on a queue without any URL (no file, or no line that is kept) a run
    ends normally and leaves the state as it found it: no log, no failure
    file, no attempt. *)
Theorem X6_empty_queue_changes_nothing (utcnow : string) (cfg : Config) (st : state) :
  queued_urls cfg st = [] ->
  process_queue json_loads json_dumps ytdl utcnow cfg st = (Ok tt, st).
Proof.
  intros Hq. unfold process_queue, mbind, M_bind.
  now rewrite load_queue_effect, Hq.
Qed.


(** X8: whatever the outcome, a run changes no file but the failure file
    and the log: the queue file, when it is neither, is left as it was. *)
Theorem X8_other_files_untouched (utcnow : string) (cfg : Config) (st st' : state)
    (r : result unit) (p : string) :
  p <> failed_file cfg ->
  p <> log_file cfg ->
  process_queue json_loads json_dumps ytdl utcnow cfg st = (r, st') ->
  files st' !! p = files st !! p.
Proof.
  intros Hfailed Hlog H. apply process_queue_recorded in H.
  destruct r as [[] | e].
  - destruct H as [[_ ->] | [_ [entries [_ [_ [Hf _]]]]]]; [reflexivity |].
    apply written_files in Hf as [_ [_ Hother]]. now apply Hother.
  - destruct H as [_ [Hf _]]. now rewrite Hf.
Qed.

(** X4: a delay that [time.sleep] refuses turns the first failure into the
    end of the run.  With room for a second attempt, when the first attempt
    on the first queued URL fails, [time.sleep] raises out of the retry loop
    and out of the run ([OverflowError] on a delay beyond [sleep_max]
    seconds of either sign, [ValueError] on another negative delay): one
    attempt was made, no file is written, and the other URLs of the queue
    are not tried. *)
Theorem X4_refused_delay_ends_run (utcnow : string) (cfg : Config) (st : state)
    (u : string) (rest : list string) (e : exn) :
  retry_delay_seconds cfg < 0 \/ sleep_max < retry_delay_seconds cfg ->
  1 < max_retries cfg ->
  queued_urls cfg st = u :: rest ->
  ytdl cfg (trace st) u = Raise e ->
  is_Exception e = true ->
  process_queue json_loads json_dumps ytdl utcnow cfg st =
  (Raise (if (retry_delay_seconds cfg <? - sleep_max)
             || (sleep_max <? retry_delay_seconds cfg)
          then OverflowError "timestamp too large to convert to C _PyTime_t"
          else ValueError "sleep length must be non-negative"),
   {| files := files st; trace := trace st ++ [Attempt u] |}).
Proof.
  intros Hd' Hmax Hq Hy He.
  assert (Hd : sleep_refused (retry_delay_seconds cfg) =
               Some (if (retry_delay_seconds cfg <? - sleep_max)
                        || (sleep_max <? retry_delay_seconds cfg)
                     then OverflowError "timestamp too large to convert to C _PyTime_t"
                     else ValueError "sleep length must be non-negative")).
  { unfold sleep_refused.
    destruct (Z.ltb_spec (retry_delay_seconds cfg) (- sleep_max)),
             (Z.ltb_spec sleep_max (retry_delay_seconds cfg)); simpl; try reflexivity.
    destruct (Z.ltb_spec (retry_delay_seconds cfg) 0); [reflexivity | lia]. }
  unfold process_queue, mbind at 1, M_bind at 1.
  rewrite load_queue_effect, Hq.
  unfold mbind at 1, M_bind at 1. rewrite load_log_effect.
  unfold mbind at 1, M_bind at 1. cbn [for_urls].
  unfold mbind at 1, M_bind at 1.
  now rewrite (download_single_refused_delay cfg u st e _ Hd Hmax Hy He).
Qed.

Lemma download_single_first_works (cfg : Config) (u : string) (st : state) :
  0 < max_retries cfg ->
  ytdl cfg (trace st) u = Ok tt ->
  download_single ytdl u cfg st =
  (Ok (SUCCESS, 0), {| files := files st; trace := trace st ++ [Attempt u] |}).
Proof.
  intros Hmax Hy. unfold download_single.
  now rewrite attempt_loop_eq, (proj2 (Z.ltb_lt _ _) Hmax), Hy.
Qed.

Lemma download_single_no_budget (cfg : Config) (u : string) (st : state) :
  max_retries cfg <= 0 ->
  download_single ytdl u cfg st = (Ok (UNKNOWN_ERROR, 0), st).
Proof.
  intros Hmax. unfold download_single.
  now rewrite attempt_loop_eq, (proj2 (Z.ltb_ge _ _) Hmax).
Qed.

Lemma for_urls_all_work (cfg : Config) (now : string) (urls : list string) :
  0 < max_retries cfg ->
  (forall t u, ytdl cfg t u = Ok tt) ->
  forall (log_entries : list json) (failed_urls : list string) (st : state),
    for_urls ytdl cfg now urls log_entries failed_urls st =
    (Ok (log_entries ++ List.map (fun u => asdict (entry_downloaded now u)) urls,
         failed_urls),
     {| files := files st; trace := trace st ++ List.map Attempt urls |}).
Proof.
  intros Hmax Hworks.
  induction urls as [| u rest IH]; intros log_entries failed_urls st.
  - simpl. rewrite !app_nil_r. now destruct st.
  - cbn [for_urls]. unfold mbind, M_bind.
    rewrite download_single_first_works by auto.
    simpl. rewrite IH. simpl. now rewrite <- !app_assoc.
Qed.

Lemma for_urls_no_budget (cfg : Config) (now : string) (urls : list string) :
  max_retries cfg <= 0 ->
  forall (log_entries : list json) (failed_urls : list string) (st : state),
    for_urls ytdl cfg now urls log_entries failed_urls st =
    (Ok (log_entries ++ List.map (fun u => asdict (entry_untried now u)) urls,
         failed_urls ++ urls), st).
Proof.
  intros Hmax.
  induction urls as [| u rest IH]; intros log_entries failed_urls st.
  - simpl. now rewrite !app_nil_r.
  - cbn [for_urls]. unfold mbind, M_bind.
    rewrite download_single_no_budget by assumption.
    simpl. rewrite IH. simpl. now rewrite <- !app_assoc.
Qed.

(** X9: when every attempt goes through (and the budget allows one), a run
    over a queue that is not empty makes one attempt per queued URL, in the
    order of the queue, and no pause; it writes the log (what it loaded,
    then a downloaded entry with 0 retries per URL) and nothing else: the
    failure file is neither made nor rewritten. *)
Theorem X9_all_downloads_work (utcnow : string) (cfg : Config) (st : state) :
  0 < max_retries cfg ->
  (forall t u, ytdl cfg t u = Ok tt) ->
  queued_urls cfg st <> [] ->
  process_queue json_loads json_dumps ytdl utcnow cfg st =
  (Ok tt,
   {| files :=
        <[log_file cfg :=
            json_dumps
              (JList (stored_log json_loads (files st !! log_file cfg)
                      ++ List.map (fun u => asdict (entry_downloaded (utcnow +:+ "Z") u))
                           (queued_urls cfg st)))]> (files st);
      trace := trace st ++ List.map Attempt (queued_urls cfg st) |}).
Proof.
  intros Hmax Hworks Hq.
  unfold process_queue, mbind at 1, M_bind at 1.
  rewrite load_queue_effect.
  destruct (queued_urls cfg st) as [| u rest] eqn:Hurls; [contradiction |].
  unfold mbind at 1, M_bind at 1. rewrite load_log_effect.
  unfold mbind at 1, M_bind at 1.
  rewrite for_urls_all_work by assumption. reflexivity.
Qed.

(** X10: with a budget of zero or less, a run over a queue that is not empty
    makes no attempt and no pause, and still records every queued URL as
    failed: the failure file (kept apart from the log) gains the whole
    queue, in order, and the log gains, per URL, a failed entry with
    UNKNOWN_ERROR and 0 retries. *)
Theorem X10_no_budget_fails_everything (utcnow : string) (cfg : Config) (st : state) :
  max_retries cfg <= 0 ->
  failed_file cfg <> log_file cfg ->
  queued_urls cfg st <> [] ->
  exists st' : state,
    process_queue json_loads json_dumps ytdl utcnow cfg st = (Ok tt, st')
    /\ trace st' = trace st
    /\ failed_lines cfg st' = failed_lines cfg st ++ queued_urls cfg st
    /\ files st' !! log_file cfg =
       Some (json_dumps
               (JList (stored_log json_loads (files st !! log_file cfg)
                       ++ List.map (fun u => asdict (entry_untried (utcnow +:+ "Z") u))
                            (queued_urls cfg st)))).
Proof.
  intros Hmax Hne Hq.
  unfold process_queue, mbind at 1, M_bind at 1.
  rewrite load_queue_effect.
  pose proof (queued_urls_no_linebreak cfg st) as Hnolb.
  destruct (queued_urls cfg st) as [| u rest] eqn:Hurls; [contradiction |].
  unfold mbind at 1, M_bind at 1. rewrite load_log_effect.
  unfold mbind at 1, M_bind at 1.
  rewrite for_urls_no_budget by assumption.
  simpl app. unfold mbind, M_bind.
  destruct (append_failed cfg (u :: rest) st) as [[[] | e] st1] eqn:Happ;
    [| rewrite append_failed_effect in Happ; discriminate].
  eexists. split; [reflexivity |].
  pose proof (failed_lines_append cfg (u :: rest) st st1 Happ Hnolb) as Hlines.
  rewrite append_failed_effect in Happ. injection Happ as <-.
  simpl. split; [reflexivity |]. split; [| apply lookup_insert_eq].
  etransitivity; [| exact Hlines]. unfold failed_lines. simpl.
  now rewrite lookup_insert_ne by congruence.
Qed.

(** X11: [main] catches the interrupt from the keyboard: it ends normally
    or raises what is neither an [Exception] nor that interrupt (the default
    delay is one [time.sleep] accepts, so it raises nothing either); and when
    the run inside it raised, the files are the ones [main] started from. *)
Theorem X11_main_catches_interrupt (utcnow : string) (st : state) :
  exists (r : result unit) (st' : state),
    main json_loads json_dumps ytdl utcnow st = (r, st')
    /\ (r = Ok tt \/ r = Raise OtherBaseException)
    /\ ((exists e, (process_queue json_loads json_dumps ytdl utcnow Config_default st).1
                   = Raise e) ->
        files st' = files st).
Proof.
  unfold main, try_except.
  destruct (process_queue json_loads json_dumps ytdl utcnow Config_default st)
    as [[[] | e] st1] eqn:Hrun.
  - exists (Ok tt), st1. split; [reflexivity |]. split; [now left |].
    intros [e He]. discriminate.
  - apply process_queue_recorded in Hrun as [_ [Hf He]].
    assert (He' : is_Exception e = false).
    { destruct He as [He | He]; [assumption | discriminate]. }
    clear He. destruct e; try discriminate.
    + exists (Ok tt), st1. split; [reflexivity |]. split; [now left | auto].
    + exists (Raise OtherBaseException), st1.
      split; [reflexivity |]. split; [now right | auto].
Qed.

(** ** The two files a run writes *)

(** X12: what [append_failed] is given is what the failure file gains: read
    line by line, the file after the call is the file before followed by the
    URLs given, in order and with their repetitions (URLs that hold no line
    boundary, as the queue loader returns them); nothing is written for an
    empty list. *)
Theorem X12_append_failed_read_back (cfg : Config) (failed_urls : list string)
    (st : state) :
  Forall (fun u => no_linebreak u = true) failed_urls ->
  (append_failed cfg failed_urls st).1 = Ok tt
  /\ failed_lines cfg (append_failed cfg failed_urls st).2
     = failed_lines cfg st ++ failed_urls
  /\ (failed_urls = [] -> (append_failed cfg failed_urls st).2 = st)
  /\ trace (append_failed cfg failed_urls st).2 = trace st
  /\ (forall p, p <> failed_file cfg ->
        files (append_failed cfg failed_urls st).2 !! p = files st !! p).
Proof.
  intros Hall.
  split; [now rewrite append_failed_effect |].
  split; [apply failed_lines_append; [now rewrite append_failed_effect | assumption] |].
  rewrite append_failed_effect. simpl.
  split; [now intros -> |].
  destruct failed_urls; repeat split; auto.
  intros p Hp. simpl. now rewrite lookup_insert_ne.
Qed.

(** X13: two calls of [append_failed] in a row leave the state that one call
    with the two lists joined leaves (the first list holding no line
    boundary). *)
Theorem X13_append_failed_composes (cfg : Config) (first second : list string)
    (st : state) :
  Forall (fun u => no_linebreak u = true) first ->
  (append_failed cfg second (append_failed cfg first st).2).2
  = (append_failed cfg (first ++ second) st).2.
Proof.
  intros Hall.
  destruct first as [| a first']; [now rewrite (append_failed_effect cfg []) |].
  destruct second as [| b second'].
  { rewrite app_nil_r. now rewrite (append_failed_effect cfg []). }
  assert (Hlines : failed_lines cfg (append_failed cfg (a :: first') st).2
                   = failed_lines cfg st ++ a :: first').
  { apply failed_lines_append; [now rewrite append_failed_effect | assumption]. }
  rewrite (append_failed_effect cfg (b :: second')).
  cbv beta iota. rewrite Hlines.
  rewrite !append_failed_effect. simpl.
  now rewrite insert_insert_eq, <- app_assoc.
Qed.

(** X14: with a [json] that reads back what it writes, the log loaded after
    [persist_log] is the list of entries that was persisted, whatever the
    log file held before. *)
Theorem X14_persist_then_load (cfg : Config) (entries : list json) (st : state) :
  (forall v, json_loads (json_dumps v) = Some v) ->
  load_log json_loads cfg (persist_log json_dumps cfg entries st).2
  = (Ok entries, (persist_log json_dumps cfg entries st).2).
Proof.
  intros Hjson. rewrite load_log_effect.
  unfold persist_log, write_text. simpl.
  now rewrite lookup_insert_eq; simpl; rewrite Hjson.
Qed.

(** ** The error classifier, once more *)

Lemma mentions_context (kw pre msg post : string) :
  mentions kw msg -> mentions kw (pre +:+ msg +:+ post).
Proof.
  intros [a [mid [b [-> Hmid]]]].
  exists (pre +:+ a), mid, (b +:+ post).
  split; [| assumption]. now rewrite !append_assoc.
Qed.

Lemma classify_error_cases (exc : exn) :
  (classify_error exc = RATE_LIMIT <-> rate_limit_shaped (str_exn exc))
  /\ (classify_error exc = UNKNOWN_ERROR ->
      ~ rate_limit_shaped (str_exn exc) /\ ~ age_limit_shaped (str_exn exc))
  /\ (classify_error exc = AGE_LIMIT -> age_limit_shaped (str_exn exc)).
Proof.
  unfold classify_error, rate_limit_shaped, age_limit_shaped.
  case_contains; simpl; intuition congruence.
Qed.

(** X15: text around a message never loses a classification: when a message
    is RATE_LIMIT, every message that holds it is RATE_LIMIT; when it is
    AGE_LIMIT, every message that holds it is AGE_LIMIT or RATE_LIMIT; only
    UNKNOWN_ERROR can turn into another code. *)
Theorem X15_classification_survives_context (inner outer : exn) (pre post : string) :
  str_exn outer = pre +:+ str_exn inner +:+ post ->
  (classify_error inner = RATE_LIMIT -> classify_error outer = RATE_LIMIT)
  /\ (classify_error inner = AGE_LIMIT ->
      classify_error outer = AGE_LIMIT \/ classify_error outer = RATE_LIMIT).
Proof.
  intros Hstr.
  destruct (classify_error_cases inner) as [Hrate [_ Hage]].
  destruct (classify_error_cases outer) as [Hrate' [Hunknown' _]].
  rewrite Hstr in Hrate', Hunknown'. split.
  - intros H. apply Hrate'. apply Hrate in H.
    destruct H as [H | [H | H]]; [left | right; left | right; right];
      now apply mentions_context.
  - intros H. apply Hage in H as [H1 H2].
    destruct (classify_error outer) eqn:Hc; auto.
    + pose proof (classify_error_not_SUCCESS outer). contradiction.
    + destruct (Hunknown' eq_refl) as [_ Hno]. exfalso. apply Hno.
      split; now apply mentions_context.
Qed.

End MoreFacts.

(** * The patterns *)

(** ** The matcher finds a match exactly when there is one *)

Lemma matcher_sound {A : Type} (ic : bool) (r : Re.re) :
  forall (s : string) (cap : option string) (k : string -> option string -> option A) (x : A),
    Re.matcher ic r s cap k = Some x ->
    exists rest cap1, Match ic r s cap rest cap1 /\ k rest cap1 = Some x.
Proof.
  induction r as [| i | i | r1 IH1 r2 IH2 | r1 IH1 r2 IH2 | r1 IH1 | r1 IH1];
    intros s cap k x Hm; simpl in Hm.
  - exists s, cap. split; [constructor | assumption].
  - destruct s as [| d s]; [discriminate |].
    destruct (Re.item_matches ic i d) eqn:Hi; [| discriminate].
    exists s, cap. split; [now constructor | assumption].
  - induction s as [| d s IHs]; [discriminate |].
    destruct (Re.item_matches ic i d) eqn:Hi; [| discriminate].
    match type of Hm with match ?m with _ => _ end = _ => destruct m eqn:Hmany end.
    + destruct IHs as [rest [cap1 [HM Hk]]]; [now rewrite <- Hm |].
      exists rest, cap1. split; [now apply Match_Many_more | assumption].
    + exists s, cap. split; [now apply Match_Many_last | assumption].
  - apply IH1 in Hm as [s1 [cap1 [HM1 Hm]]].
    apply IH2 in Hm as [s2 [cap2 [HM2 Hk]]].
    exists s2, cap2. split; [now apply (Match_Cat ic r1 r2 s cap s1 cap1) | assumption].
  - destruct (Re.matcher ic r1 s cap k) eqn:H1.
    + destruct (IH1 s cap k x) as [rest [cap1 [HM Hk]]]; [congruence |].
      exists rest, cap1. split; [now apply Match_Alt_l | assumption].
    + apply IH2 in Hm as [rest [cap1 [HM Hk]]].
      exists rest, cap1. split; [now apply Match_Alt_r | assumption].
  - destruct (Re.matcher ic r1 s cap k) eqn:H1.
    + destruct (IH1 s cap k x) as [rest [cap1 [HM Hk]]]; [congruence |].
      exists rest, cap1. split; [now apply Match_Opt_some | assumption].
    + exists s, cap. split; [apply Match_Opt_none | assumption].
  - apply IH1 in Hm as [rest [cap1 [HM Hk]]].
    exists rest, (Some (Re.consumed s rest)).
    split; [now apply (Match_Group ic r1 s cap rest cap1) | assumption].
Qed.

Lemma matcher_complete {A : Type} (ic : bool) (r : Re.re) (s : string)
    (cap : option string) (rest : string) (cap1 : option string) :
  Match ic r s cap rest cap1 ->
  forall k : string -> option string -> option A,
    is_Some (k rest cap1) -> is_Some (Re.matcher ic r s cap k).
Proof.
  induction 1 as [s c | i d s c Hi | i d s c Hi | i d s c rest c' Hi HM IH
                 | r1 r2 s c s1 c1 s2 c2 HM1 IH1 HM2 IH2
                 | r1 r2 s c rest c' HM IH | r1 r2 s c rest c' HM IH
                 | r s c rest c' HM IH | r s c | r s c rest c' HM IH];
    intros k Hk; simpl.
  - assumption.
  - now rewrite Hi.
  - rewrite Hi.
    match goal with |- is_Some (match ?m with _ => _ end) => destruct m end; eauto.
  - rewrite Hi. destruct (IH k Hk) as [x Hx].
    change (is_Some (match Re.matcher ic (Re.Many i) s c k with
                     | Some y => Some y
                     | None => k s c
                     end)).
    rewrite Hx. eauto.
  - apply IH1. now apply IH2.
  - destruct (IH k Hk) as [x Hx]. rewrite Hx. eauto.
  - destruct (Re.matcher ic r1 s c k); [eauto | now apply IH].
  - destruct (IH k Hk) as [x Hx]. rewrite Hx. eauto.
  - destruct (Re.matcher ic r s c k); [eauto | assumption].
  - now apply IH.
Qed.

Lemma search_sound (ic : bool) (r : Re.re) (s : string) (cap : option string) :
  Re.search ic r s = Some cap ->
  exists pre s' rest, s = pre +:+ s' /\ Match ic r s' None rest cap.
Proof.
  induction s as [| c s IH]; intros H; simpl in H.
  - destruct (Re.matcher ic r "" None _) eqn:Hm; [| discriminate].
    apply matcher_sound in Hm as [rest [cap1 [HM Hk]]].
    exists "", "", rest. split; [reflexivity | congruence].
  - destruct (Re.matcher ic r (String c s) None _) eqn:Hm.
    + apply matcher_sound in Hm as [rest [cap1 [HM Hk]]].
      exists "", (String c s), rest. split; [reflexivity | congruence].
    + destruct (IH H) as [pre [s' [rest [-> HM]]]].
      now exists (String c pre), s', rest.
Qed.

Lemma search_complete (ic : bool) (r : Re.re) (pre s' rest : string)
    (cap : option string) :
  Match ic r s' None rest cap -> is_Some (Re.search ic r (pre +:+ s')).
Proof.
  intros HM.
  assert (Hhere : forall s, s = s' ->
            is_Some (Re.matcher ic r s None (fun _ cap0 => Some cap0))).
  { intros s ->. apply (matcher_complete ic r s' None rest cap HM). eauto. }
  induction pre as [| c pre IH].
  - simpl. destruct s' as [| c s]; simpl;
      destruct (Hhere _ eq_refl) as [x Hx]; rewrite Hx; eauto.
  - change (String c pre +:+ s') with (String c (pre +:+ s')).
    cbn [Re.search]. destruct (Re.matcher ic r _ None _); [eauto | exact IH].
Qed.

(** [found] says that the pattern matches somewhere in the text. *)
Lemma found_iff (ic : bool) (r : Re.re) (s : string) :
  Re.found ic r s = true <->
  exists pre s' rest cap, s = pre +:+ s' /\ Match ic r s' None rest cap.
Proof.
  unfold Re.found. split.
  - destruct (Re.search ic r s) as [cap |] eqn:Hs; [| discriminate].
    intros _. apply search_sound in Hs as [pre [s' [rest [Heq HM]]]].
    now exists pre, s', rest, cap.
  - intros [pre [s' [rest [cap [-> HM]]]]].
    now destruct (search_complete ic r pre s' rest cap HM) as [x ->].
Qed.

Lemma Match_Cat_inv ic r1 r2 s c s2 c2 :
  Match ic (Re.Cat r1 r2) s c s2 c2 ->
  exists s1 c1, Match ic r1 s c s1 c1 /\ Match ic r2 s1 c1 s2 c2.
Proof. inversion 1; subst; eauto. Qed.

Lemma Match_One_inv ic i s c rest c' :
  Match ic (Re.One i) s c rest c' ->
  exists d, s = String d rest /\ c' = c /\ Re.item_matches ic i d = true.
Proof. inversion 1; subst; eauto. Qed.

Lemma Match_Opt_inv ic r s c rest c' :
  Match ic (Re.Opt r) s c rest c' ->
  Match ic r s c rest c' \/ (rest = s /\ c' = c).
Proof. inversion 1; subst; auto. Qed.

Lemma Match_Group_inv ic r s c rest c' :
  Match ic (Re.Group r) s c rest c' ->
  c' = Some (Re.consumed s rest) /\ exists c1, Match ic r s c rest c1.
Proof. inversion 1; subst; eauto. Qed.

Lemma Match_Many_run ic i s c rest c' :
  Match ic (Re.Many i) s c rest c' ->
  c' = c /\ exists run, s = run +:+ rest /\ run <> ""
                        /\ all_chars (Re.item_matches ic i) run = true.
Proof.
  remember (Re.Many i) as r eqn:Hr. induction 1; try discriminate;
    injection Hr as ->.
  - split; [reflexivity |]. exists (String d ""). simpl. rewrite H.
    repeat split. discriminate.
  - destruct (IHMatch eq_refl) as [-> [run [-> [_ Hrun]]]].
    split; [reflexivity |]. exists (String d run). simpl. rewrite H, Hrun.
    repeat split. discriminate.
Qed.

Lemma Many_run_Match ic i (run rest : string) c :
  run <> "" ->
  all_chars (Re.item_matches ic i) run = true ->
  Match ic (Re.Many i) (run +:+ rest) c rest c.
Proof.
  induction run as [| d run IH]; intros Hne Hall; [congruence |].
  simpl in Hall. apply andb_prop in Hall as [Hd Hall].
  destruct run as [| d' run'].
  - simpl. now apply Match_Many_last.
  - change (String d (String d' run') +:+ rest)
      with (String d (String d' run' +:+ rest)).
    apply Match_Many_more; [assumption |]. now apply IH.
Qed.

(** A literal run matches itself, and nothing else, when case counts. *)
Lemma Match_lit_exact (l : string) :
  forall s c rest c', Match false (Re.lit l) s c rest c' -> s = l +:+ rest /\ c' = c.
Proof.
  induction l as [| x l IH]; intros s c rest c' H; simpl in H.
  - inversion H; subst. now split.
  - apply Match_Cat_inv in H as [s1 [c1 [H1 H2]]].
    apply Match_One_inv in H1 as [d [-> [-> Hd]]].
    apply IH in H2 as [-> ->]. simpl in Hd. apply Ascii.eqb_eq in Hd as ->.
    now split.
Qed.

Lemma lit_Match_exact (l rest : string) c :
  Match false (Re.lit l) (l +:+ rest) c rest c.
Proof.
  induction l as [| x l IH]; simpl; [constructor |].
  eapply Match_Cat; [| exact IH].
  constructor. simpl. apply Ascii.eqb_refl.
Qed.

Lemma length_append (a b : string) :
  String.length (a +:+ b) = (String.length a + String.length b)%nat.
Proof. induction a as [| x a IH]; simpl; [reflexivity | now rewrite IH]. Qed.

Lemma consumed_app (pre rest : string) : Re.consumed (pre +:+ rest) rest = pre.
Proof.
  unfold Re.consumed. rewrite length_append.
  replace (String.length pre + String.length rest - String.length rest)%nat
    with (String.length pre) by lia.
  induction pre as [| x pre IH]; simpl.
  - now destruct rest.
  - now rewrite IH.
Qed.

(** ** What [YOUTUBE_URL_RE] finds *)

Lemma lower_nil (s : string) : Str.lower s = "" -> s = "".
Proof. now destruct s. Qed.

Lemma Match_lang (r : Re.re) (s : string) c (rest : string) c' :
  Match true r s c rest c' ->
  literal_only r = true ->
  exists pre, s = pre +:+ rest /\ In (Str.lower pre) (lang r).
Proof.
  induction 1 as [s c | i d s c Hi | i d s c Hi | i d s c rest c' Hi HM IH
                 | r1 r2 s c s1 c1 s2 c2 HM1 IH1 HM2 IH2
                 | r1 r2 s c rest c' HM IH | r1 r2 s c rest c' HM IH
                 | r s c rest c' HM IH | r s c | r s c rest c' HM IH];
    simpl; intros Hlit; try discriminate.
  - exists "". split; [reflexivity | now left].
  - destruct i as [c0 | p]; [| discriminate].
    exists (String d ""). split; [reflexivity |]. left. simpl in *.
    unfold Re.same_letter in Hi. apply Ascii.eqb_eq in Hi. now rewrite Hi.
  - apply andb_prop in Hlit as [Hl1 Hl2].
    destruct (IH1 Hl1) as [p1 [-> Hp1]]. destruct (IH2 Hl2) as [p2 [-> Hp2]].
    exists (p1 +:+ p2). split; [now rewrite append_assoc |].
    apply List.in_flat_map. exists (Str.lower p1). split; [assumption |].
    apply List.in_map_iff. exists (Str.lower p2). split; [| assumption].
    now rewrite lower_app.
  - apply andb_prop in Hlit as [Hl1 _]. destruct (IH Hl1) as [p [-> Hp]].
    exists p. split; [reflexivity |]. apply List.in_or_app. now left.
  - apply andb_prop in Hlit as [_ Hl2]. destruct (IH Hl2) as [p [-> Hp]].
    exists p. split; [reflexivity |]. apply List.in_or_app. now right.
  - destruct (IH Hlit) as [p [-> Hp]].
    exists p. split; [reflexivity |]. apply List.in_or_app. now left.
  - exists "". split; [reflexivity |]. apply List.in_or_app. right. now left.
  - destruct (IH Hlit) as [p [-> Hp]]. now exists p.
Qed.

Lemma lang_Match (r : Re.re) :
  literal_only r = true ->
  forall (pre rest : string) c,
    In (Str.lower pre) (lang r) ->
    exists c', Match true r (pre +:+ rest) c rest c'.
Proof.
  induction r as [| i | i | r1 IH1 r2 IH2 | r1 IH1 r2 IH2 | r1 IH1 | r1 IH1];
    simpl; intros Hlit pre rest c Hin; try discriminate.
  - destruct Hin as [Hin | []]. symmetry in Hin. apply lower_nil in Hin as ->.
    exists c. constructor.
  - destruct i as [c0 | p]; [| discriminate].
    destruct Hin as [Hin | []].
    destruct pre as [| d [| d' pre]]; try discriminate.
    simpl in Hin. injection Hin as Hd.
    exists c. simpl. constructor. simpl. unfold Re.same_letter.
    rewrite Hd. apply Ascii.eqb_refl.
  - apply andb_prop in Hlit as [Hl1 Hl2].
    apply List.in_flat_map in Hin as [a [Ha Hin]].
    apply List.in_map_iff in Hin as [b [Hab Hb]].
    symmetry in Hab. apply lower_split in Hab as [pa [pb [-> [<- <-]]]].
    destruct (IH1 Hl1 pa (pb +:+ rest) c Ha) as [c1 H1].
    destruct (IH2 Hl2 pb rest c1 Hb) as [c2 H2].
    rewrite append_assoc. exists c2.
    exact (Match_Cat true r1 r2 _ c _ c1 _ c2 H1 H2).
  - apply andb_prop in Hlit as [Hl1 Hl2].
    apply List.in_app_or in Hin as [Hin | Hin].
    + destruct (IH1 Hl1 pre rest c Hin) as [c' H]. exists c'. now apply Match_Alt_l.
    + destruct (IH2 Hl2 pre rest c Hin) as [c' H]. exists c'. now apply Match_Alt_r.
  - apply List.in_app_or in Hin as [Hin | [Hin | []]].
    + destruct (IH1 Hlit pre rest c Hin) as [c' H]. exists c'. now apply Match_Opt_some.
    + symmetry in Hin. apply lower_nil in Hin as ->. exists c. apply Match_Opt_none.
  - destruct (IH1 Hlit pre rest c Hin) as [c' H]. eexists.
    exact (Match_Group true r1 _ c rest c' H).
Qed.

(** On the characters of the model, to read as a shape is to have the lower
    case of the shape. *)
Lemma reads_as_lower (shape text : string) :
  reads_as shape text = true <-> Str.lower text = Str.lower shape.
Proof.
  revert text. induction shape as [| p shape IH]; intros [| d text]; simpl;
    try (split; [reflexivity || discriminate | reflexivity || discriminate]).
  unfold Re.same_letter. rewrite andb_true_iff, IH, Ascii.eqb_eq. split.
  - intros [-> ->]. reflexivity.
  - intros H. injection H as H1 H2. now split.
Qed.

Lemma youtube_prefixes_lower (shape : string) :
  In shape youtube_prefixes -> Str.lower shape = shape.
Proof.
  unfold youtube_prefixes. intros H.
  repeat (destruct H as [<- | H]; [reflexivity |]). destruct H.
Qed.

(** The host pattern is found in a candidate exactly when the candidate
    holds one of the eight shapes. *)
Lemma is_video_url_iff (candidate : string) :
  is_video_url candidate = true <-> video_host_url candidate.
Proof.
  unfold is_video_url, video_host_url. rewrite found_iff. split.
  - intros [pre [s' [rest [cap [-> HM]]]]].
    apply Match_lang in HM as [mid [-> Hin]]; [| reflexivity].
    exists (Str.lower mid), pre, mid, rest.
    split; [exact Hin |]. split; [reflexivity |].
    apply reads_as_lower. symmetry. apply youtube_prefixes_lower. exact Hin.
  - intros [shape [pre [mid [post [Hin [-> Hr]]]]]].
    apply reads_as_lower in Hr. rewrite (youtube_prefixes_lower shape Hin) in Hr.
    rewrite <- Hr in Hin.
    destruct (lang_Match YOUTUBE_URL_RE eq_refl mid post None Hin) as [cap HM].
    now exists pre, (mid +:+ post), post, cap.
Qed.

(** X16: the eight texts the host pattern looks for: http or https, "://",
    "www." or nothing, youtube.com or youtu.be, "/".  The pattern is found
    in every candidate that mentions one of them, whatever the case of its
    letters; and in a candidate of ASCII characters it is found only then:
    a host before which anything else stands (m.youtube.com,
    music.youtube.com) is not among them.  (The second half is stated for
    ASCII candidates because [mentions] goes through [str.lower], which
    beyond code point 255 is not the comparison of [re.IGNORECASE].) *)
Theorem X16_video_url_shapes (candidate : string) :
  ((exists shape, In shape youtube_prefixes /\ mentions shape candidate) ->
   is_video_url candidate = true)
  /\ (all_chars is_ascii candidate = true ->
      is_video_url candidate = true ->
      exists shape, In shape youtube_prefixes /\ mentions shape candidate).
Proof.
  split.
  - intros [shape [Hin [pre [mid [post [-> Hmid]]]]]].
    apply is_video_url_iff. exists shape, pre, mid, post.
    split; [assumption |]. split; [reflexivity |].
    apply reads_as_lower. now rewrite (youtube_prefixes_lower shape Hin).
  - intros _ Hv. apply is_video_url_iff in Hv as [shape [pre [mid [post [Hin [-> Hr]]]]]].
    exists shape. split; [assumption |]. exists pre, mid, post.
    split; [reflexivity |].
    apply reads_as_lower in Hr. now rewrite (youtube_prefixes_lower shape Hin) in Hr.
Qed.

(** ** What [MARKDOWN_LINK_RE] takes from a line *)

Lemma Match_markdown (s : string) c (rest : string) c' :
  Match false MARKDOWN_LINK_RE s c rest c' ->
  exists g, s = "(" +:+ g +:+ ")" +:+ rest /\ c' = Some g /\ link_url g.
Proof.
  unfold MARKDOWN_LINK_RE. intros H.
  apply Match_Cat_inv in H as [s1 [c1 [Hopen H]]].
  apply Match_One_inv in Hopen as [d [Hs [Hc Hd]]].
  unfold Re.item_matches in Hd. apply Ascii.eqb_eq in Hd. subst d s c1.
  apply Match_Cat_inv in H as [s2 [c2 [Hgroup Hclose]]].
  apply Match_One_inv in Hclose as [d [Hs2 [Hc2 Hd]]].
  unfold Re.item_matches in Hd. apply Ascii.eqb_eq in Hd. subst d s2 c'.
  apply Match_Group_inv in Hgroup as [Hc2 [c3 H]]. subst c2.
  apply Match_Cat_inv in H as [sa [ca [Hhttp H]]].
  apply Match_lit_exact in Hhttp as [Hs1 _].
  apply Match_Cat_inv in H as [sb [cb [Hs H]]].
  apply Match_Cat_inv in H as [sc [cc [Hsep Hrun]]].
  apply Match_lit_exact in Hsep as [Hsb _].
  apply Match_Many_run in Hrun as [_ [run [Hsc [Hne Hall]]]].
  assert (Hg : forall scheme, link_url (scheme +:+ run) ->
               s1 = (scheme +:+ run) +:+ String ")" rest ->
               exists g, String "(" s1 = "(" +:+ g +:+ ")" +:+ rest
                         /\ Some (Re.consumed s1 (String ")" rest)) = Some g
                         /\ link_url g).
  { intros scheme Hlink ->. exists (scheme +:+ run).
    rewrite consumed_app. repeat split; assumption. }
  apply Match_Opt_inv in Hs as [Hs | [Hsa _]].
  - apply Match_One_inv in Hs as [d [Hsa [_ Hd]]].
    unfold Re.item_matches in Hd. apply Ascii.eqb_eq in Hd. subst d.
    apply (Hg "https://").
    + exists run. repeat split; auto.
    + subst. simpl. now rewrite ?append_assoc.
  - apply (Hg "http://").
    + exists run. repeat split; auto.
    + subst. simpl. now rewrite ?append_assoc.
Qed.

Lemma markdown_Match (g rest : string) :
  link_url g ->
  Match false MARKDOWN_LINK_RE ("(" +:+ g +:+ ")" +:+ rest) None rest (Some g).
Proof.
  intros [tail [Hg [Hne Hall]]]. unfold MARKDOWN_LINK_RE.
  change ("(" +:+ g +:+ ")" +:+ rest) with (String "(" (g +:+ String ")" rest)).
  apply (Match_Cat false _ _ _ None (g +:+ String ")" rest) None);
    [constructor; reflexivity |].
  apply (Match_Cat false _ _ _ None (String ")" rest) (Some g));
    [| constructor; reflexivity].
  rewrite <- (consumed_app g (String ")" rest)) at 2.
  apply (Match_Group false _ _ None _ None).
  assert (Hrun : Match false (Re.Many (Re.NoneOf space_or_close))
                   (tail +:+ String ")" rest) None (String ")" rest) None)
    by now apply Many_run_Match.
  pose proof (lit_Match_exact "://" (tail +:+ String ")" rest) None) as Hsep.
  destruct Hg as [-> | ->].
  - change (("http://" +:+ tail) +:+ String ")" rest)
      with ("http" +:+ "://" +:+ tail +:+ String ")" rest).
    apply (Match_Cat false _ _ _ None ("://" +:+ tail +:+ String ")" rest) None);
      [apply lit_Match_exact |].
    apply (Match_Cat false _ _ _ None ("://" +:+ tail +:+ String ")" rest) None);
      [apply Match_Opt_none |].
    exact (Match_Cat false _ _ _ None _ None _ None Hsep Hrun).
  - change (("https://" +:+ tail) +:+ String ")" rest)
      with ("http" +:+ String "s" ("://" +:+ tail +:+ String ")" rest)).
    apply (Match_Cat false _ _ _ None (String "s" ("://" +:+ tail +:+ String ")" rest)) None);
      [apply lit_Match_exact |].
    apply (Match_Cat false _ _ _ None ("://" +:+ tail +:+ String ")" rest) None);
      [apply Match_Opt_some; constructor; reflexivity |].
    exact (Match_Cat false _ _ _ None _ None _ None Hsep Hrun).
Qed.

Lemma group1_markdown_Some (raw g : string) :
  Re.group1 false MARKDOWN_LINK_RE raw = Some g ->
  link_url g /\ exists pre post, raw = pre +:+ "(" +:+ g +:+ ")" +:+ post.
Proof.
  unfold Re.group1.
  destruct (Re.search false MARKDOWN_LINK_RE raw) as [[g' |] |] eqn:Hs;
    try discriminate.
  intros H. injection H as ->.
  apply search_sound in Hs as [pre [s' [rest [-> HM]]]].
  apply Match_markdown in HM as [g0 [-> [Hg Hlink]]]. injection Hg as <-.
  split; [assumption |]. now exists pre, rest.
Qed.

Lemma group1_markdown_found (raw g pre post : string) :
  link_url g -> raw = pre +:+ "(" +:+ g +:+ ")" +:+ post ->
  is_Some (Re.group1 false MARKDOWN_LINK_RE raw).
Proof.
  intros Hlink ->. unfold Re.group1.
  destruct (search_complete false MARKDOWN_LINK_RE pre _ post (Some g)
              (markdown_Match g post Hlink)) as [cap Hs].
  rewrite Hs. apply search_sound in Hs as [pre' [s' [rest [_ HM]]]].
  apply Match_markdown in HM as [g0 [_ [-> _]]]. eauto.
Qed.

(** X17: the candidate taken from a markdown link.  When the pattern gives a
    URL, the URL is [http://] or [https://] followed by at least one
    character, holds no whitespace and no closing parenthesis, and stands in
    the line between "(" and ")".  The pattern gives none exactly when the
    line holds no such URL between parentheses: the line itself is then the
    candidate. *)
Theorem X17_markdown_link_taken (raw : string) :
  (forall g, Re.group1 false MARKDOWN_LINK_RE raw = Some g ->
             link_url g /\ exists pre post, raw = pre +:+ "(" +:+ g +:+ ")" +:+ post)
  /\ (Re.group1 false MARKDOWN_LINK_RE raw = None <->
      ~ exists g pre post, link_url g /\ raw = pre +:+ "(" +:+ g +:+ ")" +:+ post).
Proof.
  split; [intros g; apply group1_markdown_Some |]. split.
  - intros Hnone [g [pre [post [Hlink Hraw]]]].
    destruct (group1_markdown_found raw g pre post Hlink Hraw) as [g' Hg'].
    congruence.
  - intros Hno. destruct (Re.group1 false MARKDOWN_LINK_RE raw) as [g |] eqn:Hg;
      [| reflexivity].
    apply group1_markdown_Some in Hg as [Hlink [pre [post Hraw]]].
    exfalso. apply Hno. now exists g, pre, post.
Qed.

(** ** A URL of the queue is a line of a queue *)

Lemma all_chars_impl (p q : ascii -> bool) (s : string) :
  (forall c, p c = true -> q c = true) ->
  all_chars p s = true -> all_chars q s = true.
Proof.
  intros Hpq. induction s as [| c s IH]; simpl; [easy |].
  intros H. apply andb_prop in H as [Hc H]. now rewrite (Hpq c Hc), IH.
Qed.

Lemma lstrip_head (s : string) :
  Str.lstrip s = "" \/ exists c r, Str.lstrip s = String c r /\ Str.isspace c = false.
Proof.
  induction s as [| c s IH]; simpl; [now left |].
  destruct (Str.isspace c) eqn:Hc; [exact IH |]. right. now exists c, s.
Qed.

Lemma rstrip_cons (c : ascii) (s : string) :
  Str.rstrip (String c s) =
  match Str.rstrip s with
  | EmptyString => if Str.isspace c then EmptyString else String c EmptyString
  | String d r => String c (String d r)
  end.
Proof. reflexivity. Qed.

Lemma rstrip_idempotent (s : string) : Str.rstrip (Str.rstrip s) = Str.rstrip s.
Proof.
  induction s as [| c s IH]; [reflexivity |].
  rewrite rstrip_cons.
  destruct (Str.rstrip s) as [| d r] eqn:Hr.
  - destruct (Str.isspace c) eqn:Hc; [reflexivity |].
    rewrite rstrip_cons. simpl. now rewrite Hc.
  - rewrite rstrip_cons, IH. reflexivity.
Qed.

Lemma rstrip_head (c : ascii) (t : string) :
  Str.isspace c = false -> exists r, Str.rstrip (String c t) = String c r.
Proof.
  intros Hc. rewrite rstrip_cons. destruct (Str.rstrip t); [rewrite Hc |]; eauto.
Qed.

Lemma strip_idempotent (s : string) : Str.strip (Str.strip s) = Str.strip s.
Proof.
  unfold Str.strip.
  destruct (lstrip_head s) as [-> | [c [r [-> Hc]]]]; [reflexivity |].
  destruct (rstrip_head c r Hc) as [r' Hr'].
  assert (Hl : Str.lstrip (Str.rstrip (String c r)) = Str.rstrip (String c r)).
  { rewrite Hr'. simpl. now rewrite Hc. }
  rewrite Hl. apply rstrip_idempotent.
Qed.

Lemma rstrip_no_space (s : string) :
  all_chars (fun c => negb (Str.isspace c)) s = true -> Str.rstrip s = s.
Proof.
  induction s as [| c s IH]; [reflexivity |].
  simpl all_chars. intros H. apply andb_prop in H as [Hc H].
  rewrite rstrip_cons, (IH H).
  destruct s; [now destruct (Str.isspace c) | reflexivity].
Qed.

Lemma strip_no_space (s : string) :
  all_chars (fun c => negb (Str.isspace c)) s = true -> Str.strip s = s.
Proof.
  intros H. unfold Str.strip.
  assert (Hl : Str.lstrip s = s).
  { destruct s as [| c s]; [reflexivity |]. simpl in *.
    apply andb_prop in H as [Hc _]. now destruct (Str.isspace c). }
  rewrite Hl. now apply rstrip_no_space.
Qed.

Lemma link_url_chars (g : string) :
  link_url g -> all_chars (fun c => negb (space_or_close c)) g = true.
Proof.
  intros [tail [[-> | ->] [_ Hall]]]; rewrite all_chars_app, Hall; reflexivity.
Qed.

(** A text without closing parenthesis holds no markdown link. *)
Lemma no_close_no_link (s : string) :
  all_chars (fun c => negb (Ascii.eqb c ")")) s = true ->
  Re.group1 false MARKDOWN_LINK_RE s = None.
Proof.
  intros Hall.
  destruct (Re.group1 false MARKDOWN_LINK_RE s) as [g |] eqn:Hg; [| reflexivity].
  apply group1_markdown_Some in Hg as [_ [pre [post ->]]].
  rewrite !all_chars_app in Hall.
  apply andb_prop in Hall as [_ Hall]. apply andb_prop in Hall as [_ Hall].
  apply andb_prop in Hall as [_ Hall]. apply andb_prop in Hall as [Hall _].
  discriminate.
Qed.

(** What the loader keeps of a line is a line it keeps as it is. *)
Lemma queue_line_fixed (line u : string) :
  queue_line line = Some u -> queue_line u = Some u.
Proof.
  unfold queue_line at 1.
  destruct (String.eqb (Str.strip line) "" || Str.startswith (Str.strip line) "#")
    eqn:Hskip; [discriminate |].
  destruct (Re.group1 false MARKDOWN_LINK_RE (Str.strip line)) as [g |] eqn:Hg.
  - destruct (Re.found true YOUTUBE_URL_RE g) eqn:Hf; [| discriminate].
    intros H. injection H as <-.
    apply group1_markdown_Some in Hg as [Hlink _].
    pose proof (link_url_chars g Hlink) as Hchars.
    assert (Hnospace : all_chars (fun c => negb (Str.isspace c)) g = true).
    { apply (all_chars_impl (fun c => negb (space_or_close c))); [| exact Hchars].
      intros c. unfold space_or_close. now destruct (Str.isspace c). }
    assert (Hnoclose : all_chars (fun c => negb (Ascii.eqb c ")")) g = true).
    { apply (all_chars_impl (fun c => negb (space_or_close c))); [| exact Hchars].
      intros c. unfold space_or_close.
      destruct (Ascii.eqb c ")"); [now rewrite orb_true_r | reflexivity]. }
    unfold queue_line.
    rewrite (strip_no_space g Hnospace), (no_close_no_link g Hnoclose).
    rewrite Hf.
    destruct Hlink as [tail [[-> | ->] _]]; reflexivity.
  - destruct (Re.found true YOUTUBE_URL_RE (Str.strip line)) eqn:Hf; [| discriminate].
    intros H. injection H as <-.
    unfold queue_line. now rewrite strip_idempotent, Hskip, Hg, Hf.
Qed.

Lemma queue_lines_fixed (urls acc : list string) :
  Forall (fun u => queue_line u = Some u) urls ->
  queue_lines urls acc = acc ++ urls.
Proof.
  revert acc. induction urls as [| u rest IH]; intros acc Hall; simpl.
  - now rewrite app_nil_r.
  - inversion Hall as [| ? ? Hu Hrest]; subst. rewrite Hu, IH by assumption.
    now rewrite <- app_assoc.
Qed.

Lemma queue_spec_is_queue_lines (text : string) :
  queue_spec text = queue_lines (Str.splitlines text) [].
Proof. unfold queue_spec. now rewrite queue_lines_spec. Qed.

Lemma queue_spec_fixed (text : string) :
  Forall (fun u => queue_line u = Some u) (queue_spec text).
Proof.
  unfold queue_spec. rewrite List.Forall_forall. intros u Hu.
  apply List.filter_In in Hu as [Hu Hvideo].
  apply List.in_map_iff in Hu as [line [<- Hline]].
  apply List.filter_In in Hline as [_ Hkeep].
  apply (queue_line_fixed line). rewrite queue_line_spec, Hkeep, Hvideo. reflexivity.
Qed.

(** The URLs of a queue, one per line, are a queue of these URLs. *)
Lemma queue_spec_of_lines (urls : list string) :
  Forall (fun u => queue_line u = Some u) urls ->
  Forall (fun u => no_linebreak u = true) urls ->
  queue_spec (Str.join (String Str.LF "") urls +:+ String Str.LF "") = urls.
Proof.
  intros Hfixed Hnolb. rewrite queue_spec_is_queue_lines.
  destruct urls as [| u rest]; [reflexivity |].
  rewrite splitlines_join; [| discriminate | assumption].
  now apply queue_lines_fixed.
Qed.

(** X18: loading is idempotent: the URLs the loader reads from a text,
    written one per line, are a queue text from which the loader reads the
    same URLs, in the same order.  No URL it returns is turned down, trimmed
    or cut when it comes back as a line. *)
Theorem X18_queue_of_loaded_urls (text : string) :
  queue_spec (Str.join (String Str.LF "") (queue_spec text) +:+ String Str.LF "")
  = queue_spec text.
Proof.
  apply queue_spec_of_lines; [apply queue_spec_fixed | apply queue_spec_no_linebreak].
Qed.

(** X19: the failure file of a run can be the queue of the next one.  When
    a run that ends normally makes the failure file (there was none, and it
    is kept apart from the log), the queue loader reads from its text the
    lines of the file: the URLs that failed, each of them a URL of the queue
    the run had. *)
Theorem X19_failure_file_as_queue (json_loads : string -> option json)
    (json_dumps : json -> string)
    (ytdl : Config -> list event -> string -> result unit)
    (utcnow : string) (cfg : Config) (st st' : state) (text : string) :
  failed_file cfg <> log_file cfg ->
  files st !! failed_file cfg = None ->
  process_queue json_loads json_dumps ytdl utcnow cfg st = (Ok tt, st') ->
  files st' !! failed_file cfg = Some text ->
  queue_spec text = failed_lines cfg st'
  /\ failed_lines cfg st' <> []
  /\ (forall u, In u (failed_lines cfg st') -> In u (queued_urls cfg st)).
Proof.
  intros Hne Hnone Hrun Htext.
  apply process_queue_recorded in Hrun.
  destruct Hrun as [[_ ->] | [_ [entries [Hurls [_ [Hf _]]]]]]; [congruence |].
  assert (Hsub : forall u, In u (List.map url (List.filter entry_failed entries)) ->
                           In u (queued_urls cfg st)).
  { intros u Hu. rewrite <- Hurls.
    apply List.in_map_iff in Hu as [e [<- He]].
    apply List.filter_In in He as [He _]. now apply List.in_map. }
  pose proof (failed_urls_no_linebreak cfg st entries Hurls) as Hnolb.
  assert (Hfixed : Forall (fun u => queue_line u = Some u)
                     (List.map url (List.filter entry_failed entries))).
  { rewrite List.Forall_forall. intros u Hu. apply Hsub in Hu.
    unfold queued_urls in Hu. destruct (files st !! queue_file cfg); [| destruct Hu].
    pose proof (queue_spec_fixed s) as Hall. rewrite List.Forall_forall in Hall.
    now apply Hall. }
  unfold failed_lines. rewrite Htext.
  rewrite Hf, lookup_insert_ne, append_failed_effect in Htext by congruence.
  destruct (List.map url (List.filter entry_failed entries)) as [| u rest] eqn:HF;
    simpl in Htext; [congruence |].
  rewrite lookup_insert_eq in Htext. injection Htext as <-.
  unfold failed_lines. rewrite Hnone. simpl app.
  rewrite queue_spec_of_lines by assumption.
  rewrite splitlines_join; [| discriminate | assumption].
  split; [reflexivity |]. split; [discriminate | exact Hsub].
Qed.

(** ** The folder of a video *)

Lemma folder_name_kept (title : string) :
  all_chars kept_in_folder_name (folder_name title) = true.
Proof.
  induction title as [| c title IH]; [reflexivity |].
  cbn [folder_name all_chars]. rewrite IH, andb_true_r.
  destruct (kept_in_folder_name c) eqn:Hc; [exact Hc | reflexivity].
Qed.

Lemma all_chars_not_contains p (c : ascii) (s : string) :
  p c = false -> all_chars p s = true -> Str.contains (String c "") s = false.
Proof.
  intros Hc. induction s as [| d s IH]; [reflexivity |].
  cbn [all_chars]. intros H. apply andb_prop in H as [Hd H].
  cbn [Str.contains Str.startswith]. rewrite (IH H), orb_false_r.
  destruct (Ascii.eqb_spec c d) as [-> | _]; [congruence | reflexivity].
Qed.

(** X20: the folder name made from a title is as long as the title and holds
    only letters, digits, spaces, hyphens and underscores: no "/" and no
    ".", so it is never a path of several parts, nor "." or "..". *)
Theorem X20_folder_name_is_plain (title : string) :
  String.length (folder_name title) = String.length title
  /\ all_chars kept_in_folder_name (folder_name title) = true
  /\ Str.contains "/" (folder_name title) = false
  /\ Str.contains "." (folder_name title) = false.
Proof.
  split.
  { induction title as [| c title IH]; [reflexivity |].
    cbn [folder_name String.length]. now rewrite IH. }
  pose proof (folder_name_kept title) as Hkept.
  split; [exact Hkept |].
  split; apply (all_chars_not_contains kept_in_folder_name);
    [vm_compute; reflexivity | exact Hkept | vm_compute; reflexivity | exact Hkept].
Qed.

(** X21: a title made of kept characters only is its own folder name, and
    the folder name of a folder name is that folder name. *)
Theorem X21_folder_name_idempotent (title : string) :
  (all_chars kept_in_folder_name title = true -> folder_name title = title)
  /\ folder_name (folder_name title) = folder_name title.
Proof.
  assert (Hfix : forall t, all_chars kept_in_folder_name t = true -> folder_name t = t).
  { induction t as [| c t IH]; [reflexivity |]. cbn [all_chars folder_name].
    intros H. apply andb_prop in H as [Hc H]. now rewrite Hc, IH. }
  split; [apply Hfix | apply Hfix, folder_name_kept].
Qed.

(** ** The queue loader against the words of the specification *)

(** [search] stops at the first position that has a match. *)
Lemma search_leftmost (ic : bool) (r : Re.re) (s : string) (cap : option string) :
  Re.search ic r s = Some cap ->
  exists pre s' rest,
    s = pre +:+ s' /\ Match ic r s' None rest cap
    /\ forall pre1 s1 rest1 cap1,
         s = pre1 +:+ s1 -> Match ic r s1 None rest1 cap1 ->
         (String.length pre <= String.length pre1)%nat.
Proof.
  induction s as [| c s IH]; intros H; simpl in H.
  - destruct (Re.matcher ic r "" None _) eqn:Hm; [| discriminate].
    apply matcher_sound in Hm as [rest [cap1 [HM Hk]]].
    exists "", "", rest. split; [reflexivity |]. split; [congruence |].
    intros. simpl. lia.
  - destruct (Re.matcher ic r (String c s) None _) eqn:Hm.
    + apply matcher_sound in Hm as [rest [cap1 [HM Hk]]].
      exists "", (String c s), rest. split; [reflexivity |]. split; [congruence |].
      intros. simpl. lia.
    + destruct (IH H) as [pre [s' [rest [Hs [HM Hmin]]]]].
      exists (String c pre), s', rest.
      split; [simpl; now rewrite Hs |]. split; [assumption |].
      intros pre1 s1 rest1 cap1 Heq HM1.
      destruct pre1 as [| c1 pre1].
      * simpl in Heq. subst s1.
        destruct (matcher_complete ic r _ None rest1 cap1 HM1
                    (fun _ cap0 => Some cap0)) as [x Hx]; [eauto |].
        congruence.
      * simpl in Heq. injection Heq as _ Heq.
        specialize (Hmin pre1 s1 rest1 cap1 Heq HM1). simpl. lia.
Qed.

Lemma app_eq_length (a b x y : string) :
  a +:+ x = b +:+ y -> String.length a = String.length b -> a = b /\ x = y.
Proof.
  revert b. induction a as [| c a IH]; intros [| d b]; simpl; try discriminate.
  - auto.
  - intros H Hlen. injection H as -> H. injection Hlen as Hlen.
    destruct (IH b H Hlen) as [-> ->]. auto.
Qed.

(** Two texts without closing parenthesis that stand before one are the
    same text. *)
Lemma close_unique (a b x y : string) :
  all_chars (fun c => negb (Ascii.eqb c ")")) a = true ->
  all_chars (fun c => negb (Ascii.eqb c ")")) b = true ->
  a +:+ String ")" x = b +:+ String ")" y -> a = b.
Proof.
  revert b. induction a as [| c a IH]; intros [| d b]; simpl; intros Ha Hb H.
  - reflexivity.
  - injection H as <- _. simpl in Hb. discriminate.
  - injection H as -> _. simpl in Ha. discriminate.
  - injection H as -> H.
    apply andb_prop in Ha as [_ Ha]. apply andb_prop in Hb as [_ Hb].
    f_equal. now apply IH.
Qed.

Lemma link_url_no_close (g : string) :
  link_url g -> all_chars (fun c => negb (Ascii.eqb c ")")) g = true.
Proof.
  intros H. apply link_url_chars in H.
  eapply all_chars_impl; [| exact H].
  intros c Hc. unfold space_or_close in Hc.
  apply negb_true_iff, orb_false_iff in Hc as [_ Hc]. now rewrite Hc.
Qed.

(** A line has at most one first link. *)
Lemma first_link_unique (raw g1 g2 : string) :
  first_link raw g1 -> first_link raw g2 -> g1 = g2.
Proof.
  intros [pre1 [post1 [[H1 L1] M1]]] [pre2 [post2 [[H2 L2] M2]]].
  assert (Hlen : String.length pre1 = String.length pre2).
  { apply Nat.le_antisymm; [apply (M1 pre2 g2 post2) | apply (M2 pre1 g1 post1)];
      now split. }
  rewrite H1 in H2. apply app_eq_length in H2 as [_ H2]; [| assumption].
  simpl in H2. injection H2 as H2.
  apply (close_unique g1 g2 post1 post2); auto using link_url_no_close.
Qed.

(** What the markdown pattern gives is the first link of the line, and it
    gives nothing only on a line without link. *)
Lemma group1_first_link (raw g : string) :
  Re.group1 false MARKDOWN_LINK_RE raw = Some g -> first_link raw g.
Proof.
  unfold Re.group1.
  destruct (Re.search false MARKDOWN_LINK_RE raw) as [[g' |] |] eqn:Hs;
    try discriminate.
  intros H. injection H as ->.
  apply search_leftmost in Hs as [pre [s' [rest [-> [HM Hmin]]]]].
  apply Match_markdown in HM as [g0 [-> [Hg Hlink]]]. injection Hg as <-.
  exists pre, rest. split; [now split |].
  intros pre' g' post' [Heq Hl].
  apply (Hmin pre' ("(" +:+ g' +:+ ")" +:+ post') post' (Some g') Heq).
  now apply markdown_Match.
Qed.

Lemma group1_no_link (raw : string) :
  Re.group1 false MARKDOWN_LINK_RE raw = None -> ~ has_link raw.
Proof.
  intros Hn [pre [g [post [Heq Hl]]]].
  destruct (group1_markdown_found raw g pre post Hl Heq) as [x Hx]. congruence.
Qed.

(** The body of the loop does to a line what the specification says. *)
Lemma queue_line_yields (line : string) : line_yields line (queue_line line).
Proof.
  unfold line_yields, queue_line. cbv zeta.
  destruct (String.eqb_spec (Str.strip line) "") as [He | Hne]; cbn [orb].
  { left. split; [now left | reflexivity]. }
  destruct (Str.startswith (Str.strip line) "#") eqn:Hs.
  { left. split; [| reflexivity]. right. now apply startswith_spec. }
  right. split; [assumption |]. split.
  { intros rest Hr.
    assert (Str.startswith (Str.strip line) "#" = true)
      by (apply startswith_spec; eauto).
    congruence. }
  destruct (Re.group1 false MARKDOWN_LINK_RE (Str.strip line)) as [g |] eqn:Hg.
  - exists g. split; [left; now apply group1_first_link |].
    destruct (Re.found true YOUTUBE_URL_RE g) eqn:Hf.
    + left. split; [now apply is_video_url_iff | reflexivity].
    + right. split; [| reflexivity].
      intros Hv. apply is_video_url_iff in Hv. unfold is_video_url in Hv. congruence.
  - exists (Str.strip line). split; [right; split; [now apply group1_no_link | reflexivity] |].
    destruct (Re.found true YOUTUBE_URL_RE (Str.strip line)) eqn:Hf.
    + left. split; [now apply is_video_url_iff | reflexivity].
    + right. split; [| reflexivity].
      intros Hv. apply is_video_url_iff in Hv. unfold is_video_url in Hv. congruence.
Qed.

(** The specification leaves no choice: a line yields one outcome. *)
Lemma line_yields_functional (line : string) (o1 o2 : option string) :
  line_yields line o1 -> line_yields line o2 -> o1 = o2.
Proof.
  unfold line_yields. cbv zeta.
  intros [[Hs1 ->] | [Hn1 [Hc1 [c1 [Hcand1 Hv1]]]]]
         [[Hs2 ->] | [Hn2 [Hc2 [c2 [Hcand2 Hv2]]]]].
  - reflexivity.
  - exfalso. destruct Hs1 as [H | [rest H]]; [contradiction | exact (Hc2 rest H)].
  - exfalso. destruct Hs2 as [H | [rest H]]; [contradiction | exact (Hc1 rest H)].
  - assert (Hc : c1 = c2).
    { destruct Hcand1 as [F1 | [N1 ->]], Hcand2 as [F2 | [N2 ->]].
      - exact (first_link_unique _ _ _ F1 F2).
      - exfalso. apply N2. destruct F1 as [pre [post [L _]]]. now exists pre, c1, post.
      - exfalso. apply N1. destruct F2 as [pre [post [L _]]]. now exists pre, c2, post.
      - reflexivity. }
    subst c2.
    destruct Hv1 as [[V1 ->] | [V1 ->]], Hv2 as [[V2 ->] | [V2 ->]];
      try reflexivity; contradiction.
Qed.

Lemma lines_yield_functional (lines : list string) (o1 o2 : list (option string)) :
  Forall2 line_yields lines o1 -> Forall2 line_yields lines o2 -> o1 = o2.
Proof.
  intros H1. revert o2. induction H1 as [| line o lines os Hl _ IH]; intros o2 H2;
    inversion H2; subst; [reflexivity |].
  f_equal; [eapply line_yields_functional; eassumption | now apply IH].
Qed.

Lemma lines_yield_queue_line (lines : list string) :
  Forall2 line_yields lines (List.map queue_line lines).
Proof.
  induction lines as [| line lines IH]; simpl; constructor;
    [apply queue_line_yields | exact IH].
Qed.

Lemma queue_lines_yielded (lines urls : list string) :
  queue_lines lines urls = urls ++ yielded (List.map queue_line lines).
Proof.
  revert urls. induction lines as [| line lines IH]; intros urls; simpl.
  - now rewrite app_nil_r.
  - destruct (queue_line line); rewrite IH; [now rewrite <- app_assoc | reflexivity].
Qed.

(** C5: the queue loader raises nothing, changes nothing, and returns the
    empty list without a queue file.  With one, line by line the
    specification names one outcome: nothing for a line that, trimmed, is
    blank or starts with "#"; otherwise the candidate of the line (the URL
    of its first markdown link, the link that starts before every other, or
    the trimmed line when it has no link) if the candidate holds one of the
    eight shapes of a video-host URL whatever the case of its letters, and
    nothing if it does not.  The loader returns the URLs of these outcomes
    in the order of the lines. *)
Theorem C5_load_queue_spec (cfg : Config) (st : state) :
  exists urls : list string,
    load_queue cfg st = (Ok urls, st)
    /\ match files st !! queue_file cfg with
       | None => urls = []
       | Some text =>
           exists outcomes : list (option string),
             Forall2 line_yields (Str.splitlines text) outcomes
             /\ urls = yielded outcomes
             /\ forall outcomes',
                  Forall2 line_yields (Str.splitlines text) outcomes' ->
                  outcomes' = outcomes
       end.
Proof.
  exists (queued_urls cfg st). split; [apply load_queue_effect |].
  unfold queued_urls. destruct (files st !! queue_file cfg) as [text |]; [| reflexivity].
  exists (List.map queue_line (Str.splitlines text)).
  split; [apply lines_yield_queue_line |]. split.
  - transitivity (queue_lines (Str.splitlines text) []).
    + now rewrite queue_lines_spec.
    + now rewrite queue_lines_yielded.
  - intros outcomes' H.
    exact (lines_yield_functional _ _ _ H (lines_yield_queue_line _)).
Qed.

(** The loader on the sample queue: of two links the first is taken, the
    plain URL is kept trimmed and in its own case, and the other four lines
    give nothing. *)
Example load_queue_sample :
  load_queue Config_default {| files := {[ "queue.md" := sample_queue_text ]}; trace := [] |}
  = (Ok ["https://youtube.com/watch?v=1"; "HTTPS://WWW.YOUTUBE.COM/watch?v=3"],
     {| files := {[ "queue.md" := sample_queue_text ]}; trace := [] |}).
Proof. vm_compute. reflexivity. Qed.

(** ** The extra theorems at work on the scenarios *)

Lemma X1_witness :
  exists j : nat,
    1 = Z.of_nat j /\ 1 < max_retries Config_default
    /\ files {| files := files one_url_queue;
                trace := [Attempt sample_url; Sleep 5; Attempt sample_url] |}
       = files one_url_queue
    /\ trace {| files := files one_url_queue;
                trace := [Attempt sample_url; Sleep 5; Attempt sample_url] |}
       = trace one_url_queue
         ++ rounds sample_url (retry_delay_seconds Config_default) j ++ [Attempt sample_url]
    /\ flaky_once Config_default
         (trace one_url_queue ++ rounds sample_url (retry_delay_seconds Config_default) j)
         sample_url = Ok tt.
Proof.
  apply (X1_success_counts_failures flaky_once Config_default sample_url one_url_queue).
  vm_compute. reflexivity.
Defined.

Lemma X2_witness :
  let st' := (download_single rate_limited sample_url Config_default one_url_queue).2 in
  let before_last :=
    trace one_url_queue
    ++ rounds sample_url (retry_delay_seconds Config_default)
         (Z.to_nat (max_retries Config_default - 1)) in
  3 = max_retries Config_default
  /\ files st' = files one_url_queue
  /\ trace st' = before_last ++ [Attempt sample_url]
  /\ exists e, rate_limited Config_default before_last sample_url = Raise e
                /\ is_Exception e = true /\ RATE_LIMIT = classify_error e.
Proof.
  apply (X2_exhausted_after_budget rate_limited Config_default sample_url one_url_queue).
  - reflexivity.
  - discriminate.
  - vm_compute. reflexivity.
Defined.


Lemma X4_witness :
  process_queue bit_loads bit_dumps rate_limited "2024-05-01T10:00:00"
    Config_huge_delay one_url_queue =
  (Raise (OverflowError "timestamp too large to convert to C _PyTime_t"),
   {| files := files one_url_queue;
      trace := trace one_url_queue ++ [Attempt sample_url] |}).
Proof.
  apply (X4_refused_delay_ends_run bit_loads bit_dumps rate_limited
           "2024-05-01T10:00:00" Config_huge_delay one_url_queue sample_url []
           (DownloadError "HTTP Error 429: Too Many Requests")).
  - right. unfold sleep_max. simpl. lia.
  - simpl. lia.
  - vm_compute. reflexivity.
  - reflexivity.
  - reflexivity.
Defined.

(** The same run under a delay of -1: [time.sleep] raises [ValueError]. *)
Example negative_delay_run :
  process_queue bit_loads bit_dumps rate_limited "2024-05-01T10:00:00"
    Config_negative_delay one_url_queue =
  (Raise (ValueError "sleep length must be non-negative"),
   {| files := files one_url_queue;
      trace := trace one_url_queue ++ [Attempt sample_url] |}).
Proof. vm_compute. reflexivity. Qed.

Lemma X5_witness :
  exists entries : list LogEntry,
    List.map url entries = queued_urls Config_default one_url_queue
    /\ files (state_after rate_limited "2024-05-01T10:00:00" one_url_queue)
         !! log_file Config_default =
       Some (bit_dumps (JList (stored_log bit_loads
                                 (files one_url_queue !! log_file Config_default)
                               ++ List.map asdict entries)))
    /\ Forall (fun e => date_created e = "2024-05-01T10:00:00" +:+ "Z") entries
    /\ Forall (fun e => status e = "downloaded" ->
                        0 <= retries e < max_retries Config_default) entries
    /\ Forall (fun e => status e = "failed" ->
                        retries e = Z.max 0 (max_retries Config_default)) entries.
Proof.
  apply (X5_entries_of_a_run bit_loads bit_dumps rate_limited "2024-05-01T10:00:00"
           Config_default one_url_queue).
  - vm_compute. discriminate.
  - vm_compute. reflexivity.
Defined.

Lemma X6_witness :
  process_queue bit_loads bit_dumps rate_limited "2024-05-01T10:00:00" Config_default
    {| files := {[ "queue.md" := "# nothing to fetch today" ]}; trace := [] |} =
  (Ok tt, {| files := {[ "queue.md" := "# nothing to fetch today" ]}; trace := [] |}).
Proof.
  apply (X6_empty_queue_changes_nothing bit_loads bit_dumps rate_limited).
  vm_compute. reflexivity.
Defined.


Lemma X8_witness :
  files (state_after rate_limited "2024-05-01T10:00:00" one_url_queue) !! "queue.md"
  = files one_url_queue !! "queue.md".
Proof.
  apply (X8_other_files_untouched bit_loads bit_dumps rate_limited "2024-05-01T10:00:00"
           Config_default one_url_queue _ (Ok tt)).
  - simpl. discriminate.
  - simpl. discriminate.
  - vm_compute. reflexivity.
Defined.

Lemma X9_witness :
  process_queue bit_loads bit_dumps always_works "2024-05-01T10:00:00" Config_default
    one_url_queue =
  (Ok tt,
   {| files :=
        <[log_file Config_default :=
            bit_dumps
              (JList (stored_log bit_loads (files one_url_queue !! log_file Config_default)
                      ++ List.map
                           (fun u => asdict (entry_downloaded ("2024-05-01T10:00:00" +:+ "Z") u))
                           (queued_urls Config_default one_url_queue)))]>
          (files one_url_queue);
      trace := trace one_url_queue
               ++ List.map Attempt (queued_urls Config_default one_url_queue) |}).
Proof.
  apply (X9_all_downloads_work bit_loads bit_dumps always_works "2024-05-01T10:00:00"
           Config_default one_url_queue).
  - simpl. lia.
  - intros t u. unfold always_works, scripted. now destruct (count_attempts t).
  - vm_compute. discriminate.
Defined.

Lemma X10_witness :
  exists st' : state,
    process_queue bit_loads bit_dumps always_works "2024-05-01T10:00:00" Config_no_retry
      one_url_queue = (Ok tt, st')
    /\ trace st' = trace one_url_queue
    /\ failed_lines Config_no_retry st'
       = failed_lines Config_no_retry one_url_queue
         ++ queued_urls Config_no_retry one_url_queue
    /\ files st' !! log_file Config_no_retry =
       Some (bit_dumps
               (JList (stored_log bit_loads
                         (files one_url_queue !! log_file Config_no_retry)
                       ++ List.map
                            (fun u => asdict (entry_untried ("2024-05-01T10:00:00" +:+ "Z") u))
                            (queued_urls Config_no_retry one_url_queue)))).
Proof.
  apply (X10_no_budget_fails_everything bit_loads bit_dumps always_works
           "2024-05-01T10:00:00" Config_no_retry one_url_queue).
  - simpl. lia.
  - simpl. discriminate.
  - vm_compute. discriminate.
Defined.

Lemma X12_witness :
  (append_failed Config_default [sample_url; sample_url] one_url_queue).1 = Ok tt
  /\ failed_lines Config_default
       (append_failed Config_default [sample_url; sample_url] one_url_queue).2
     = failed_lines Config_default one_url_queue ++ [sample_url; sample_url]
  /\ ([sample_url; sample_url] = [] ->
      (append_failed Config_default [sample_url; sample_url] one_url_queue).2
      = one_url_queue)
  /\ trace (append_failed Config_default [sample_url; sample_url] one_url_queue).2
     = trace one_url_queue
  /\ (forall p, p <> failed_file Config_default ->
        files (append_failed Config_default [sample_url; sample_url] one_url_queue).2 !! p
        = files one_url_queue !! p).
Proof.
  apply (X12_append_failed_read_back Config_default [sample_url; sample_url] one_url_queue).
  repeat constructor.
Defined.

Lemma X13_witness :
  (append_failed Config_default [sample_url]
     (append_failed Config_default [sample_url] one_url_queue).2).2
  = (append_failed Config_default ([sample_url] ++ [sample_url]) one_url_queue).2.
Proof.
  apply (X13_append_failed_composes Config_default [sample_url] [sample_url] one_url_queue).
  repeat constructor.
Defined.

Lemma X14_witness :
  load_log bit_loads Config_default
    (persist_log bit_dumps Config_default [JStr "kept"; JInt 7] one_url_queue).2
  = (Ok [JStr "kept"; JInt 7],
     (persist_log bit_dumps Config_default [JStr "kept"; JInt 7] one_url_queue).2).
Proof.
  apply (X14_persist_then_load bit_loads bit_dumps Config_default
           [JStr "kept"; JInt 7] one_url_queue).
  exact bit_loads_dumps.
Defined.

Lemma X15_witness :
  (classify_error (DownloadError "HTTP Error 429") = RATE_LIMIT ->
   classify_error (ExtractorError "ERROR: [youtube] HTTP Error 429; retry later")
   = RATE_LIMIT)
  /\ (classify_error (DownloadError "HTTP Error 429") = AGE_LIMIT ->
      classify_error (ExtractorError "ERROR: [youtube] HTTP Error 429; retry later")
      = AGE_LIMIT
      \/ classify_error (ExtractorError "ERROR: [youtube] HTTP Error 429; retry later")
         = RATE_LIMIT).
Proof.
  apply (X15_classification_survives_context
           (DownloadError "HTTP Error 429")
           (ExtractorError "ERROR: [youtube] HTTP Error 429; retry later")
           "ERROR: [youtube] " "; retry later").
  reflexivity.
Defined.

Lemma X16_witness :
  is_video_url "HTTPS://WWW.YouTube.com/watch?v=X" = true
  /\ exists shape,
       In shape youtube_prefixes /\ mentions shape "HTTPS://WWW.YouTube.com/watch?v=X".
Proof.
  destruct (X16_video_url_shapes "HTTPS://WWW.YouTube.com/watch?v=X") as [_ Honly].
  assert (Hv : is_video_url "HTTPS://WWW.YouTube.com/watch?v=X" = true) by reflexivity.
  split; [exact Hv |]. apply Honly; [reflexivity | exact Hv].
Defined.

Lemma X19_witness :
  queue_spec (sample_url +:+ String Str.LF "")
  = failed_lines Config_default
      (state_after rate_limited "2024-05-01T10:00:00" one_url_queue)
  /\ failed_lines Config_default
       (state_after rate_limited "2024-05-01T10:00:00" one_url_queue) <> []
  /\ (forall u,
        In u (failed_lines Config_default
                (state_after rate_limited "2024-05-01T10:00:00" one_url_queue)) ->
        In u (queued_urls Config_default one_url_queue)).
Proof.
  apply (X19_failure_file_as_queue bit_loads bit_dumps rate_limited
           "2024-05-01T10:00:00" Config_default one_url_queue).
  - simpl. discriminate.
  - reflexivity.
  - vm_compute. reflexivity.
  - vm_compute. reflexivity.
Defined.
